(** * synbioblast: the ingestion and dedup pipeline (slurper.go) and the
      reconciliation of blast hits with their source URIs (synbioblast.go).

    The Go programs are embedded shallowly.  Go strings are byte strings
    ([string]); redis is a finite map from keys to typed values; the fasta
    directory is a finite map from file names to file contents; [log.Fatal]
    ends the program and is modelled by a [Fatal] outcome that still carries
    the durable state reached so far. *)

From Stdlib Require Import ZArith List String Ascii Bool Lia.
From Stdlib Require Import DecimalString DecimalZ DecimalPos DecimalFacts.
From Stdlib Require PrimFloat.

#[local] Set Warnings "-clear-no-such-hyp".
From stdpp Require Import base option strings gmap list fin_maps fin_sets.

Local Open Scope Z_scope.

(** ** Byte strings *)

Module GoStrings.

Definition byte_of (c : ascii) : Z := Z.of_N (N_of_ascii c).
Definition ascii_of (b : Z) : ascii := ascii_of_N (Z.to_N b).

Definition bytes_of_string (s : string) : list Z :=
  List.map byte_of (list_ascii_of_string s).

Definition is_upper (c : ascii) : bool :=
  (65 <=? byte_of c) && (byte_of c <=? 90).


(** [strings.ToLower] on one byte: ['A'..'Z'] is moved by ['a' - 'A'],
    every other byte is kept. *)
Definition lower_byte (c : ascii) : ascii :=
  if is_upper c then ascii_of (byte_of c + 32) else c.

(** [strings.ToLower].  Sequences are nucleotide letters, so the model is
    the library's ASCII path: bytes outside ['A'..'Z'] are unchanged. *)
Fixpoint ToLower (s : string) : string :=
  match s with
  | EmptyString => EmptyString
  | String c s' => String (lower_byte c) (ToLower s')
  end.

(** One hexadecimal digit of [fmt]'s [%x] verb (lower-case digits). *)
Definition hex_digit (n : Z) : ascii :=
  if n <? 10 then ascii_of (48 + n) else ascii_of (87 + n).

(** [fmt.Sprintf("%x", b)] for a byte slice: two digits per byte. *)
Fixpoint hex (bs : list Z) : string :=
  match bs with
  | nil => EmptyString
  | b :: bs' =>
      String (hex_digit (Z.shiftr b 4 mod 16))
        (String (hex_digit (Z.land b 15)) (hex bs'))
  end.

Definition is_hex_lower (c : ascii) : bool :=
  ((48 <=? byte_of c) && (byte_of c <=? 57))
  || ((97 <=? byte_of c) && (byte_of c <=? 102)).

Fixpoint all_chars (p : ascii -> bool) (s : string) : bool :=
  match s with
  | EmptyString => true
  | String c s' => p c && all_chars p s'
  end.

End GoStrings.

(** ** crypto/sha1 *)

Module SHA1.

Definition mask32 : Z := 4294967295.
Definition w32 (x : Z) : Z := Z.land x mask32.
Definition add32 (x y : Z) : Z := w32 (x + y).
Definition rotl (n x : Z) : Z :=
  w32 (Z.lor (Z.shiftl x n) (Z.shiftr x (32 - n))).
Definition not32 (x : Z) : Z := Z.lxor x mask32.

Definition be32 (x : Z) : list Z :=
  [Z.land (Z.shiftr x 24) 255; Z.land (Z.shiftr x 16) 255;
   Z.land (Z.shiftr x 8) 255; Z.land x 255].

Definition be64 (x : Z) : list Z :=
  be32 (Z.shiftr x 32) ++ be32 (w32 x).

(** Padding: a [0x80] byte, zeros up to 56 modulo 64, then the length of
    the message in bits as a 64-bit big-endian integer. *)
Definition pad (msg : list Z) : list Z :=
  let len := Z.of_nat (length msg) in
  let zeros := Z.to_nat ((55 - len) mod 64) in
  msg ++ [128] ++ repeat 0 zeros ++ be64 (Z.land (8 * len) 18446744073709551615).

Fixpoint words (n : nat) (bs : list Z) : list Z :=
  match n, bs with
  | S n', b0 :: b1 :: b2 :: b3 :: rest =>
      Z.lor (Z.shiftl b0 24) (Z.lor (Z.shiftl b1 16) (Z.lor (Z.shiftl b2 8) b3))
      :: words n' rest
  | _, _ => nil
  end.

Record digest := Digest { h0 : Z; h1 : Z; h2 : Z; h3 : Z; h4 : Z }.

Definition init : digest :=
  Digest 1732584193 4023233417 2562383102 271733878 3285377520.

Definition f (t : nat) (b c d : Z) : Z :=
  if (t <? 20)%nat then Z.lor (Z.land b c) (Z.land (not32 b) d)
  else if (t <? 40)%nat then Z.lxor b (Z.lxor c d)
  else if (t <? 60)%nat then
    Z.lor (Z.land b c) (Z.lor (Z.land b d) (Z.land c d))
  else Z.lxor b (Z.lxor c d).

Definition K (t : nat) : Z :=
  if (t <? 20)%nat then 1518500249
  else if (t <? 40)%nat then 1859775393
  else if (t <? 60)%nat then 2400959708
  else 3395469782.

(** The message schedule is kept as the window [w_t .. w_(t+15)]. *)
Definition next_window (ws : list Z) : list Z :=
  let w i := nth i ws 0 in
  tl ws ++ [rotl 1 (Z.lxor (w 13%nat) (Z.lxor (w 8%nat) (Z.lxor (w 2%nat) (w 0%nat))))].

Fixpoint rounds (n t : nat) (ws : list Z) (s : digest) : digest :=
  match n with
  | O => s
  | S n' =>
      let '(Digest a b c d e) := s in
      let tmp :=
        add32 (add32 (add32 (add32 (rotl 5 a) (f t b c d)) e) (K t)) (nth 0 ws 0) in
      rounds n' (S t) (next_window ws) (Digest tmp a (rotl 30 b) c d)
  end.

Definition block (s : digest) (bs : list Z) : digest :=
  let r := rounds 80 0 (words 16 bs) s in
  Digest (add32 (h0 s) (h0 r)) (add32 (h1 s) (h1 r)) (add32 (h2 s) (h2 r))
         (add32 (h3 s) (h3 r)) (add32 (h4 s) (h4 r)).

Fixpoint blocks (n : nat) (s : digest) (bs : list Z) : digest :=
  match n with
  | O => s
  | S n' =>
      match bs with
      | nil => s
      | _ => blocks n' (block s (firstn 64 bs)) (skipn 64 bs)
      end
  end.

(** [sha.Sum(nil)] after writing [msg]: the 20 bytes of the digest. *)
Definition Sum (msg : list Z) : list Z :=
  let p := pad msg in
  let d := blocks (length p) init p in
  be32 (h0 d) ++ be32 (h1 d) ++ be32 (h2 d) ++ be32 (h3 d) ++ be32 (h4 d).

End SHA1.

(** ** path.Clean and path.Join *)

Module Path.

Definition slash : ascii := "/"%char.

(** The elements of a path between its slashes, empty ones included. *)
Fixpoint components (s : string) : list string :=
  match s with
  | EmptyString => [EmptyString]
  | String c s' =>
      if Ascii.eqb c slash then EmptyString :: components s'
      else match components s' with
           | x :: xs => String c x :: xs
           | [] => [String c EmptyString]
           end
  end.

(** One element of the path against the elements kept so far (last one
    first): empty and ["."] elements are dropped, [".."] removes the last
    element kept, or is kept itself at the start of an unrooted path. *)
Definition clean_step (rooted : bool) (out : list string) (e : string)
  : list string :=
  if String.eqb e "" then out
  else if String.eqb e "." then out
  else if String.eqb e ".." then
    match out with
    | top :: rest => if String.eqb top ".." then e :: out else rest
    | [] => if rooted then [] else [e]
    end
  else e :: out.

Fixpoint join_slash (l : list string) : string :=
  match l with
  | [] => ""
  | [x] => x
  | x :: rest => x +:+ "/" +:+ join_slash rest
  end.

Definition Clean (path : string) : string :=
  match path with
  | EmptyString => "."
  | String c _ =>
      let rooted := Ascii.eqb c slash in
      let out := fold_left (clean_step rooted) (components path) [] in
      let body := join_slash (rev out) in
      if rooted then "/" +:+ body
      else if String.eqb body "" then "." else body
  end.

(** [path.Join] of two elements. *)
Definition Join (a b : string) : string :=
  if String.eqb a "" then (if String.eqb b "" then "" else Clean b)
  else Clean (a +:+ "/" +:+ b).

End Path.

(** ** time.Parse(time.RFC3339, _) *)

Module Time.

Record Time := mkTime {
  year : Z; month : Z; day : Z;
  hour : Z; minute : Z; second : Z;
  nanosecond : Z;
  zone : Z  (* offset east of UTC, in seconds *)
}.

Definition digit (c : ascii) : option Z :=
  let b := GoStrings.byte_of c in
  if (48 <=? b) && (b <=? 57) then Some (b - 48) else None.

Definition num2 (a b : ascii) : option Z :=
  x ← digit a; y ← digit b; Some (10 * x + y).

Definition num4 (a b c d : ascii) : option Z :=
  x ← num2 a b; y ← num2 c d; Some (100 * x + y).

Definition is_leap (y : Z) : bool :=
  (y mod 4 =? 0) && (negb (y mod 100 =? 0) || (y mod 400 =? 0)).

Definition days_in (y m : Z) : Z :=
  if m =? 2 then (if is_leap y then 29 else 28)
  else if (m =? 4) || (m =? 6) || (m =? 9) || (m =? 11) then 30
  else 31.

(** The digits of a fraction of a second and what follows them. *)
Fixpoint fraction (n : nat) (acc : Z) (l : list ascii) : Z * list ascii :=
  match l with
  | c :: l' =>
      match digit c with
      | Some d =>
          match n with
          | O => fraction O acc l'
          | S n' => fraction n' (acc + d * 10 ^ Z.of_nat n') l'
          end
      | None => (acc, l)
      end
  | [] => (acc, l)
  end.

Definition zone_of (l : list ascii) : option Z :=
  match l with
  | ["Z"%char] => Some 0
  | [sg; h1; h2; ":"%char; m1; m2] =>
      h ← num2 h1 h2; m ← num2 m1 m2;
      if (h <=? 23) && (m <=? 59) then
        if Ascii.eqb sg "+"%char then Some (3600 * h + 60 * m)
        else if Ascii.eqb sg "-"%char then Some (- (3600 * h + 60 * m))
        else None
      else None
  | _ => None
  end.

(** Date and time of RFC 3339: [2006-01-02T15:04:05Z07:00], with an
    optional fraction of a second, every field checked against its range. *)
Definition Parse_RFC3339 (s : string) : option Time :=
  match list_ascii_of_string s with
  | y1 :: y2 :: y3 :: y4 :: "-"%char :: mo1 :: mo2 :: "-"%char :: dy1 :: dy2
    :: "T"%char :: h1 :: h2 :: ":"%char :: mi1 :: mi2 :: ":"%char
    :: s1 :: s2 :: rest =>
      y ← num4 y1 y2 y3 y4; mo ← num2 mo1 mo2; d ← num2 dy1 dy2;
      h ← num2 h1 h2; mi ← num2 mi1 mi2; sec ← num2 s1 s2;
      if (1 <=? mo) && (mo <=? 12) && (1 <=? d) && (d <=? days_in y mo)
         && (h <=? 23) && (mi <=? 59) && (sec <=? 59)
      then
        let '(ns, rest') :=
          match rest with
          | "."%char :: c :: l' =>
              match digit c with
              | Some _ => fraction 9 0 (c :: l')
              | None => (0, rest)
              end
          | _ => (0, rest)
          end in
        z ← zone_of rest';
        Some (mkTime y mo d h mi sec ns z)
      else None
  | _ => None
  end.

End Time.

(** ** strconv.ParseInt and the decimal form of an integer *)

Module Strconv.

Definition int64_min : Z := - 2 ^ 63.
Definition int64_max : Z := 2 ^ 63 - 1.

Definition in_int64 (z : Z) : bool := (int64_min <=? z) && (z <=? int64_max).

Definition FormatInt (z : Z) : string :=
  DecimalString.NilZero.string_of_int (Z.to_int z).

(** [strconv.ParseInt(s, 10, 64)]: an optional sign, then decimal digits;
    a value outside 64 bits is an error. *)
Definition ParseInt (s : string) : option Z :=
  match s with
  | EmptyString => None
  | String c s' =>
      z ← (if Ascii.eqb c "+"%char
           then Z.of_uint <$> DecimalString.NilZero.uint_of_string s'
           else Z.of_int <$> DecimalString.NilZero.int_of_string s);
      if in_int64 z then Some z else None
  end.

End Strconv.

(** ** Redis: the commands the two programs send *)

Module Redis.

(** What a key holds.  [VOther] stands for every type the programs never
    create (list, hash, sorted set, ...). *)
Inductive value :=
| VStr (s : string)
| VSet (members : gset string)
| VOther.

Abbreviation store := (gmap string value).

Inductive cmd :=
| GET (key : string)
| SET (key val : string)
| INCRBY (key : string) (n : Z)
| SADD (key member : string)
| SMEMBERS (key : string).

Inductive resp :=
| RNil
| RSimple (s : string)
| RBulk (s : string)
| RInt (n : Z)
| RArray (l : list string)
| RErr (msg : string).

Definition wrongtype : string :=
  "WRONGTYPE Operation against a key holding the wrong kind of value".
Definition notint : string := "ERR value is not an integer or out of range".
Definition overflow : string := "ERR increment or decrement would overflow".

(** The server reads an integer only in its canonical decimal form. *)
Definition string2ll (s : string) : option Z :=
  z ← Strconv.ParseInt s;
  if String.eqb (Strconv.FormatInt z) s then Some z else None.

Definition exec (c : cmd) (db : store) : resp * store :=
  match c with
  | GET k =>
      match db !! k with
      | None => (RNil, db)
      | Some (VStr s) => (RBulk s, db)
      | Some _ => (RErr wrongtype, db)
      end
  | SET k v => (RSimple "OK", <[k := VStr v]> db)
  | INCRBY k n =>
      if negb (Strconv.in_int64 n) then (RErr notint, db)
      else
        let old :=
          match db !! k with
          | None => inr 0
          | Some (VStr s) =>
              match string2ll s with
              | Some v => inr v
              | None => inl notint
              end
          | Some _ => inl wrongtype
          end in
        match old with
        | inl e => (RErr e, db)
        | inr v =>
            if Strconv.in_int64 (v + n)
            then (RInt (v + n), <[k := VStr (Strconv.FormatInt (v + n))]> db)
            else (RErr overflow, db)
        end
  | SADD k m =>
      match db !! k with
      | None => (RInt 1, <[k := VSet {[ m ]}]> db)
      | Some (VSet members) =>
          (RInt (if decide (m ∈ members) then 0 else 1),
           <[k := VSet (members ∪ {[ m ]})]> db)
      | Some _ => (RErr wrongtype, db)
      end
  | SMEMBERS k =>
      match db !! k with
      | None => (RArray [], db)
      | Some (VSet members) => (RArray (elements members), db)
      | Some _ => (RErr wrongtype, db)
      end
  end.

(** [Resp.Err]: the error of a reply, if it is one. *)
Definition Err (r : resp) : option string :=
  match r with RErr m => Some m | _ => None end.

Definition ErrRespNil : string := "response is nil".

(** [Resp.Int]. *)
Definition Int (r : resp) : string + Z :=
  match r with
  | RErr m => inl m
  | RInt n => inr n
  | RBulk s | RSimple s =>
      match Strconv.ParseInt s with
      | Some n => inr n
      | None => inl ("strconv.ParseInt: parsing " +:+ s)
      end
  | RNil => inl ErrRespNil
  | RArray _ => inl "could not convert to int"
  end.

(** [Resp.List]. *)
Definition List (r : resp) : string + list string :=
  match r with
  | RErr m => inl m
  | RArray l => inr l
  | RNil => inl ErrRespNil
  | _ => inl "could not convert to array"
  end.

End Redis.

(** ** The flags of the two programs *)

Record Config := mkConfig {
  blastdbDir : string;
  blastdbName : string;
  synbiohubURL : string;
  resultLimit : Z;
  redisURL : string;
  redisOffsetKey : string;
  redisDedupSetKey : string;
  redisSeqSetPrefix : string;
  fastaDir : string;
  port : Z
}.

(** The values the flags have when none is given. *)
Definition default_config : Config := {|
  blastdbDir := "/var/synbioblast/blastdbs";
  blastdbName := "SynBioHub";
  synbiohubURL := "https://synbiohub.org/sparql";
  resultLimit := 100;
  redisURL := "localhost:6379";
  redisOffsetKey := "sequenceoffset";
  redisDedupSetKey := "sequenceHashSet";
  redisSeqSetPrefix := "sequence";
  fastaDir := "/var/synbioblast/fastas";
  port := 9090
|}.

(** ** The durable state and the outcome of a run *)

Record World := mkWorld {
  redis : gmap string Redis.value;
  fastas : gmap string string;       (* file name to file contents *)
  writable : string -> bool          (* can this file be written? *)
}.

Inductive outcome (A : Type) :=
| Ok (a : A) (w : World)
| Fatal (msg : string) (w : World).
Arguments Ok {A} a w.
Arguments Fatal {A} msg w.

Definition M (A : Type) : Type := World -> outcome A.

Definition ret {A} (a : A) : M A := fun w => Ok a w.

Definition bind {A B} (m : M A) (k : A -> M B) : M B :=
  fun w => match m w with
           | Ok a w' => k a w'
           | Fatal msg w' => Fatal msg w'
           end.

(** [log.Fatal]: the program ends where it is. *)
Definition fatal {A} (msg : string) : M A := fun w => Fatal msg w.

Declare Scope go_scope.
Delimit Scope go_scope with go.
Notation "x <- m ;; k" := (bind m (fun x => k))
  (at level 100, m at next level, right associativity) : go_scope.
Notation "m ;; k" := (bind m (fun _ => k))
  (at level 100, right associativity) : go_scope.
Local Open Scope go_scope.

(** The world a run ends in, whether it ended well or not. *)
Definition final {A} (o : outcome A) : World :=
  match o with Ok _ w => w | Fatal _ w => w end.

(** [client.Cmd]: one command sent, its reply read. *)
Definition Cmd (c : Redis.cmd) : M Redis.resp :=
  fun w =>
    let '(r, db) := Redis.exec c (redis w) in
    Ok r (mkWorld db (fastas w) (writable w)).

(** [ioutil.WriteFile]: the file is created or truncated, then written. *)
Definition WriteFile (filename data : string) : M (option string) :=
  fun w =>
    if writable w filename
    then Ok None (mkWorld (redis w) (<[filename := data]> (fastas w)) (writable w))
    else Ok (Some ("open " +:+ filename)) w.

(** ** slurper.go *)

Record binding := mkBinding {
  Name : string;
  Value : string;
  Datatype : string
}.

Record result := mkResult { Bindings : list binding }.

Record variable := mkVariable { VarName : string }.

Record sparqlResult := mkSparqlResult {
  Variables : list variable;
  Results : list result
}.

Record sequence := mkSequence {
  URI : string;
  Sequence : string;
  Created : Time.Time
}.

Fixpoint getValue_in (bs : list binding) (name : string) : string :=
  match bs with
  | [] => ""
  | b :: bs' => if String.eqb (Name b) name then Value b else getValue_in bs' name
  end.

Definition getValue (r : result) (name : string) : string :=
  getValue_in (Bindings r) name.

Definition Hash (s : sequence) : string :=
  GoStrings.hex (SHA1.Sum (GoStrings.bytes_of_string (Sequence s))).

Definition parseSparqlTime (s : string) : option Time.Time :=
  Time.Parse_RFC3339 s.

(** The loop of [parse] over the results of the page. *)
Fixpoint parse_results (rs : list result) : M (list sequence) :=
  match rs with
  | [] => ret []
  | r :: rs' =>
      let uri := getValue r "uri" in
      let nucl := getValue r "elements" in
      match parseSparqlTime (getValue r "created") with
      | None => fatal ("couldn't parse time: " +:+ getValue r "created")
      | Some t =>
          rest <- parse_results rs' ;;
          ret (mkSequence uri (GoStrings.ToLower nucl) t :: rest)
      end
  end.

(** A response body is seen through [xml.Unmarshal]: [None] when it is not
    the XML of a [sparqlResult]. *)
Definition body := option sparqlResult.

Definition parse (bytes : body) : M (list sequence) :=
  match bytes with
  | None => fatal "couldn't parse xml: "
  | Some r => parse_results (Results r)
  end.

(** What the query service answers to a query with a limit and an offset:
    [None] when the request fails. *)
Definition Upstream := Z -> Z -> option body.

Definition fetch (cfg : Config) (up : Upstream) (offset : Z) : M body :=
  match up (resultLimit cfg) offset with
  | None => fatal "couldn't make request: "
  | Some b => ret b
  end.

Definition newline : string := String (ascii_of_N 10) EmptyString.

Definition fasta_name (cfg : Config) (hash : string) : string :=
  Path.Join (fastaDir cfg) (hash +:+ ".fasta").

(** [fmt.Sprintf(">%s\n%s\n", hash, seq)] *)
Definition fasta_file (hash seq : string) : string :=
  ">" +:+ hash +:+ newline +:+ seq +:+ newline.

Definition seq_key (cfg : Config) (hash : string) : string :=
  redisSeqSetPrefix cfg +:+ ":" +:+ hash.

(** The body of the loop of [process], for one sequence. *)
Definition process_one (cfg : Config) (seq : sequence) : M unit :=
  let hash := Hash seq in
  let filename := fasta_name cfg hash in
  let file := fasta_file hash (Sequence seq) in
  err <- WriteFile filename file ;;
  match err with
  | Some e => fatal ("couldn't write file " +:+ filename +:+ ": " +:+ e)
  | None =>
      r <- Cmd (Redis.SADD (redisDedupSetKey cfg) hash) ;;
      match Redis.Err r with
      | Some e => fatal ("couldn't add hash to dedup set" +:+ e)
      | None =>
          let key := seq_key cfg hash in
          r <- Cmd (Redis.SADD key (URI seq)) ;;
          match Redis.Err r with
          | Some e => fatal ("couldn't add uri to sequence set: " +:+ e)
          | None => ret tt
          end
      end
  end.

Fixpoint process (cfg : Config) (seqs : list sequence) : M unit :=
  match seqs with
  | [] => ret tt
  | seq :: rest => process_one cfg seq ;; process cfg rest
  end.

(** The start of [main]: the offset is read, or set to 0 when there is none. *)
Definition startup (cfg : Config) : M Z :=
  r <- Cmd (Redis.GET (redisOffsetKey cfg)) ;;
  match Redis.Int r with
  | inl err =>
      if String.eqb err Redis.ErrRespNil then
        r <- Cmd (Redis.SET (redisOffsetKey cfg) (Strconv.FormatInt 0)) ;;
        match Redis.Err r with
        | Some _ => fatal "couldn't set initial offset value"
        | None => ret 0
        end
      else fatal ("couldn't get offset val: " +:+ err)
  | inr offset => ret offset
  end.

(** [time.Duration] counts nanoseconds. *)
Definition Second : Z := 1000000000.
Definition Hour : Z := 3600 * Second.

Definition len {A} (l : list A) : Z := Z.of_nat (length l).

(** One turn of the loop of [main]: the new offset and the time slept. *)
Definition cycle (cfg : Config) (up : Upstream) (offset : Z) : M (Z * Z) :=
  bytes <- fetch cfg up offset ;;
  seqs <- parse bytes ;;
  process cfg seqs ;;
  r <- Cmd (Redis.INCRBY (redisOffsetKey cfg) (len seqs)) ;;
  match Redis.Int r with
  | inl err => fatal ("couldn't update offset with new records: " +:+ err)
  | inr offset' =>
      if len seqs <? resultLimit cfg
      then ret (offset', Hour * 4)
      else ret (offset', Second * 2)
  end.

(** The loop of [main], for as many turns as there are answers of the query
    service; the times slept are returned with the last offset. *)
Fixpoint main_loop (cfg : Config) (ups : list Upstream) (offset : Z)
  : M (Z * list Z) :=
  match ups with
  | [] => ret (offset, [])
  | up :: ups' =>
      turn <- cycle cfg up offset ;;
      let '(offset', slept) := turn in
      later <- main_loop cfg ups' offset' ;;
      let '(last, sleeps) := later in
      ret (last, slept :: sleeps)
  end.

Definition main (cfg : Config) (ups : list Upstream) : M (Z * list Z) :=
  offset <- startup cfg ;;
  main_loop cfg ups offset.

(** ** synbioblast.go *)

Record blastResult := mkBlastResult {
  SeqHash : string;
  BitScore : PrimFloat.float;
  Score : Z;
  EValue : string;
  QuerySeq : string;
  Midline : string;
  HitSeq : string;
  URIs : list string
}.

Record BlastResults := mkBlastResults {
  Version : string;
  Reference : string;
  BlastHits : list blastResult;      (* the field [Results] *)
  DBNum : Z;
  Query : string;
  Error : string;
  Duration : Z;
  NumResults : Z
}.

(** The redis client of the web server, with its pipeline: the commands
    appended and not yet sent, and the replies read and not yet taken. *)
Record Client := mkClient {
  db : gmap string Redis.value;
  pending : list Redis.cmd;
  completed : list Redis.resp
}.

Definition PipeAppend (c : Client) (cmd : Redis.cmd) : Client :=
  mkClient (db c) (pending c ++ [cmd]) (completed c).

Fixpoint flush (cs : list Redis.cmd) (d : gmap string Redis.value)
  : list Redis.resp * gmap string Redis.value :=
  match cs with
  | [] => ([], d)
  | c :: cs' =>
      let '(r, d') := Redis.exec c d in
      let '(rs, d'') := flush cs' d' in
      (r :: rs, d'')
  end.

Definition ErrPipelineEmpty : string := "pipeline queue empty".

(** [PipeResp]: the next reply already read if there is one; otherwise all
    pending commands are sent, all their replies read, and the first taken. *)
Definition PipeResp (c : Client) : Redis.resp * Client :=
  match completed c with
  | r :: rest => (r, mkClient (db c) (pending c) rest)
  | [] =>
      match pending c with
      | [] => (Redis.RErr ErrPipelineEmpty, c)
      | cs =>
          let '(rs, d) := flush cs (db c) in
          match rs with
          | r :: rest => (r, mkClient d [] rest)
          | [] => (Redis.RErr ErrPipelineEmpty, mkClient d [] [])
          end
      end
  end.

Definition with_URIs (r : blastResult) (uris : list string) : blastResult :=
  mkBlastResult (SeqHash r) (BitScore r) (Score r) (EValue r) (QuerySeq r)
    (Midline r) (HitSeq r) uris.

(** The first loop of [getURIs]: one SMEMBERS per hit, in order. *)
Fixpoint append_lookups (cfg : Config) (c : Client) (hits : list blastResult)
  : Client :=
  match hits with
  | [] => c
  | h :: hits' =>
      append_lookups cfg (PipeAppend c (Redis.SMEMBERS (seq_key cfg (SeqHash h)))) hits'
  end.

(** The second loop of [getURIs]: the hits with their URIs filled in up to
    the first reply that is not a list, and that error. *)
Fixpoint take_replies (c : Client) (hits : list blastResult)
  : Client * list blastResult * option string :=
  match hits with
  | [] => (c, [], None)
  | h :: hits' =>
      let '(r, c1) := PipeResp c in
      match Redis.List r with
      | inl err => (c1, h :: hits', Some err)
      | inr uris =>
          let '(c2, rest, e) := take_replies c1 hits' in
          (c2, with_URIs h uris :: rest, e)
      end
  end.

Definition with_hits (r : BlastResults) (hits : list blastResult) : BlastResults :=
  mkBlastResults (Version r) (Reference r) hits (DBNum r) (Query r) (Error r)
    (Duration r) (NumResults r).

Definition getURIs (cfg : Config) (c : Client) (r : BlastResults)
  : Client * BlastResults * option string :=
  let c1 := append_lookups cfg c (BlastHits r) in
  let '(c2, hits, err) := take_replies c1 (BlastHits r) in
  (c2, with_hits r hits, err).

(** [parseResults] after [xml.Unmarshal]. *)
Definition parseResults (cfg : Config) (c : Client) (xml : option BlastResults)
  : Client * (string + BlastResults) :=
  match xml with
  | None => (c, inl "xml: syntax error")
  | Some results =>
      let '(c', results', err) := getURIs cfg c results in
      match err with
      | Some e => (c', inl e)
      | None => (c', inr results')
      end
  end.

(** ** Vocabulary of the properties *)

(** The cursor: the offset that redis holds, read as the server reads it. *)
Definition cursor (cfg : Config) (w : World) : option Z :=
  match redis w !! redisOffsetKey cfg with
  | Some (Redis.VStr s) => Redis.string2ll s
  | _ => None
  end.

Definition members_of (v : option Redis.value) : gset string :=
  match v with Some (Redis.VSet members) => members | _ => ∅ end.

(** SADD and SMEMBERS accept a key that is absent or holds a set. *)
Definition settable (v : option Redis.value) : bool :=
  match v with
  | None | Some (Redis.VSet _) => true
  | _ => false
  end.

(** The dedup index: the URIs recorded for a hash, and the hashes seen. *)
Definition identifiersFor (cfg : Config) (d : gmap string Redis.value)
    (hash : string) : gset string :=
  members_of (d !! seq_key cfg hash).

Definition seen (cfg : Config) (d : gmap string Redis.value) : gset string :=
  members_of (d !! redisDedupSetKey cfg).

(** A content hash: 40 lower-case hexadecimal digits. *)
Definition is_hash (h : string) : bool :=
  (String.length h =? 40)%nat && GoStrings.all_chars GoStrings.is_hex_lower h.



(** A result that has no binding of the given name. *)
Definition missing (r : result) (name : string) : bool :=
  forallb (fun b => negb (String.eqb (Name b) name)) (Bindings r).

(** The key of the set of hashes is not the key of the set of a hash. *)
Definition keys_apart (cfg : Config) : bool :=
  negb (String.prefix (redisSeqSetPrefix cfg +:+ ":") (redisDedupSetKey cfg)).

(** Sequence store and dedup index agree on every content hash. *)
Definition store_inv (cfg : Config) (w : World) : Prop :=
  forall h, is_hash h = true ->
    (is_Some (fastas w !! fasta_name cfg h) <-> identifiersFor cfg (redis w) h <> ∅)
    /\ (h ∈ seen cfg (redis w) -> is_Some (fastas w !! fasta_name cfg h)).

(** Nothing is removed from [w] to [w']: every file is still there, every
    set still has its members. *)
Definition kept (w w' : World) : Prop :=
  (forall f, is_Some (fastas w !! f) -> is_Some (fastas w' !! f))
  /\ (forall k members, redis w !! k = Some (Redis.VSet members) ->
        exists members', redis w' !! k = Some (Redis.VSet members')
                         /\ members ⊆ members').

(** The sizes of the pages that a run of the loop is answered with. *)
Fixpoint page_sizes (cfg : Config) (ups : list Upstream) (offset : Z) : list Z :=
  match ups with
  | [] => []
  | up :: ups' =>
      match up (resultLimit cfg) offset with
      | Some (Some r) =>
          len (Results r) :: page_sizes cfg ups' (offset + len (Results r))
      | _ => []
      end
  end.

Definition sum (l : list Z) : Z := fold_right Z.add 0 l.

(** The pipeline of a client is empty. *)
Definition idle (c : Client) : Prop := pending c = [] /\ completed c = [].

Definition no_slash (s : string) : bool :=
  GoStrings.all_chars (fun c => negb (Ascii.eqb c Path.slash)) s.

Definition always (P : World -> World -> Prop) {A} (m : M A) : Prop :=
  forall w, P w (final (m w)).

(** Strings in redis are not touched, and nothing is removed. *)
Definition stable (w w' : World) : Prop :=
  kept w w'
  /\ (forall k s, redis w !! k = Some (Redis.VStr s) ->
        redis w' !! k = Some (Redis.VStr s)).

(** What a successful SADD leaves in redis. *)
Definition sadd (k m : string) (d : gmap string Redis.value)
  : gmap string Redis.value :=
  <[k := Redis.VSet (members_of (d !! k) ∪ {[ m ]})]> d.

(** A sequence as [parse] makes it from a result. *)
Definition parsed_from (r : result) (s : sequence) : Prop :=
  URI s = getValue r "uri"
  /\ Sequence s = GoStrings.ToLower (getValue r "elements")
  /\ parseSparqlTime (getValue r "created") = Some (Created s).

(** The world after the body of the loop of [process] ran well. *)
Definition step (cfg : Config) (seq : sequence) (w : World) : World :=
  let hash := Hash seq in
  mkWorld
    (sadd (seq_key cfg hash) (URI seq) (sadd (redisDedupSetKey cfg) hash (redis w)))
    (<[fasta_name cfg hash := fasta_file hash (Sequence seq)]> (fastas w))
    (writable w).

(** Whether it runs well: the file can be written and both keys take SADD. *)
Definition can_step (cfg : Config) (seq : sequence) (w : World) : bool :=
  let hash := Hash seq in
  writable w (fasta_name cfg hash)
  && settable (redis w !! redisDedupSetKey cfg)
  && settable (sadd (redisDedupSetKey cfg) hash (redis w) !! seq_key cfg hash).

Fixpoint steps (cfg : Config) (seqs : list sequence) (w : World) : World :=
  match seqs with
  | [] => w
  | seq :: rest => steps cfg rest (step cfg seq w)
  end.

Fixpoint can_steps (cfg : Config) (seqs : list sequence) (w : World) : bool :=
  match seqs with
  | [] => true
  | seq :: rest => can_step cfg seq w && can_steps cfg rest (step cfg seq w)
  end.

(** The keys that a page sends SADD to, and the members it adds to a key. *)
Definition adds_one (cfg : Config) (seq : sequence) (k : string) : gset string :=
  (if decide (redisDedupSetKey cfg = k) then {[ Hash seq ]} else ∅)
  ∪ (if decide (seq_key cfg (Hash seq) = k) then {[ URI seq ]} else ∅).

Fixpoint adds (cfg : Config) (seqs : list sequence) (k : string) : gset string :=
  match seqs with
  | [] => ∅
  | seq :: rest => adds_one cfg seq k ∪ adds cfg rest k
  end.

Fixpoint touched (cfg : Config) (seqs : list sequence) : gset string :=
  match seqs with
  | [] => ∅
  | seq :: rest =>
      {[ redisDedupSetKey cfg; seq_key cfg (Hash seq) ]} ∪ touched cfg rest
  end.

(** The last contents that a page writes to a file, if it writes to it. *)
Fixpoint last_write (cfg : Config) (seqs : list sequence) (f : string)
  : option string :=
  match seqs with
  | [] => None
  | seq :: rest =>
      match last_write cfg rest f with
      | Some data => Some data
      | None =>
          if decide (fasta_name cfg (Hash seq) = f)
          then Some (fasta_file (Hash seq) (Sequence seq))
          else None
      end
  end.

(** The page of the end-to-end scenario, and a world with nothing in it. *)
Definition bind_of (name value : string) : binding := mkBinding name value "".

Definition result_u1 : result :=
  mkResult [bind_of "uri" "u1"; bind_of "elements" "ACGT";
            bind_of "created" "2020-01-01T00:00:00Z"].

Definition result_u2 : result :=
  mkResult [bind_of "uri" "u2"; bind_of "elements" "acgt";
            bind_of "created" "2020-01-02T00:00:00Z"].

Definition scenario_page : sparqlResult := mkSparqlResult [] [result_u1; result_u2].

Definition seq_u1 : sequence :=
  mkSequence "u1" "acgt" (Time.mkTime 2020 1 1 0 0 0 0 0).

Definition seq_u2 : sequence :=
  mkSequence "u2" "acgt" (Time.mkTime 2020 1 2 0 0 0 0 0).

Definition empty_world : World := mkWorld ∅ ∅ (fun _ => true).

(** What a turn of the loop does to a world that holds the cursor [c]. *)
Definition cycle_post (cfg : Config) (up : Upstream) (offset c : Z) (w : World)
    (o : outcome (Z * Z)) : Prop :=
  match o with
  | Ok (offset', slept) w' =>
      exists r seqs wp,
        up (resultLimit cfg) offset = Some (Some r)
        /\ parse (Some r) w = Ok seqs w
        /\ len seqs = len (Results r)
        /\ process cfg seqs w = Ok tt wp
        /\ cursor cfg wp = Some c
        /\ kept wp w'
        /\ offset' = c + len seqs
        /\ cursor cfg w' = Some (c + len seqs)
        /\ slept = (if len seqs <? resultLimit cfg then Hour * 4 else Second * 2)
  | Fatal _ w' => cursor cfg w' = Some c /\ kept w w'
  end.

(** The service of the scenario: the page of two records at offset 0 and
    nothing after it; and the world that [main] leaves when it starts. *)
Definition scenario_upstream : Upstream :=
  fun limit offset =>
    if offset =? 0 then Some (Some scenario_page)
    else Some (Some (mkSparqlResult [] [])).

Definition started_world : World :=
  mkWorld {[ "sequenceoffset" := Redis.VStr "0" ]} ∅ (fun _ => true).



Definition result_no_created : result :=
  mkResult [bind_of "uri" "u3"; bind_of "elements" "ACGT"].

Definition page_no_created : sparqlResult :=
  mkSparqlResult [] [result_u1; result_no_created].

(** The commands that read and write nothing. *)
Definition is_read (c : Redis.cmd) : bool :=
  match c with
  | Redis.GET _ | Redis.SMEMBERS _ => true
  | _ => false
  end.

Definition lookup_of (cfg : Config) (h : blastResult) : Redis.cmd :=
  Redis.SMEMBERS (seq_key cfg (SeqHash h)).

(** The reply of redis to the lookup of a hit, when its key takes SMEMBERS. *)
Definition reply_of (cfg : Config) (d : gmap string Redis.value) (h : blastResult)
  : Redis.resp :=
  Redis.RArray (elements (identifiersFor cfg d (SeqHash h))).

(** A hit with the URIs that the dedup index has for its hash. *)
Definition reconciled (cfg : Config) (d : gmap string Redis.value) (h : blastResult)
  : blastResult :=
  with_URIs h (elements (identifiersFor cfg d (SeqHash h))).

(** Two hits: the sequence of the scenario, and a hash that was never seen. *)
Definition hit_acgt : blastResult :=
  mkBlastResult "9482340281b5fc8f2a298dbbd6b82fe42159b6c5" PrimFloat.one 4
    "0.001" "ACGT" "||||" "ACGT" [].

Definition hit_unknown : blastResult :=
  mkBlastResult "da39a3ee5e6b4b0d3255bfef95601890afd80709" PrimFloat.one 2
    "0.5" "AC" "||" "AC" [].

Definition scenario_results : BlastResults :=
  mkBlastResults "BLASTN 2.6.0+" "" [hit_acgt; hit_unknown] 1 "" "" 0 0.

Definition scenario_client : Client :=
  mkClient (redis (steps default_config [seq_u1; seq_u2] empty_world)) [] [].

(** The same redis with a string under the key of the unknown hash, and the
    same client with a reply left over in its pipeline. *)
Definition broken_client : Client :=
  mkClient (<[seq_key default_config (SeqHash hit_unknown) := Redis.VStr "x"]>
              (db scenario_client)) [] [].

Definition stale_client : Client :=
  mkClient (db scenario_client) [] [Redis.RArray ["stale"]].

(** The reply of redis to the lookup of a hit, whatever its key holds. *)
Definition answer (cfg : Config) (d : gmap string Redis.value) (h : blastResult)
  : Redis.resp :=
  fst (Redis.exec (lookup_of cfg h) d).

(** What running [./blastn] on a query comes to: no pipe to its input; or
    its combined output, what [xml.Unmarshal] makes of that output, the error
    of the run if there is one, and the time it took. *)
Inductive blastn_run :=
| NoPipe (err : string)
| Ran (out : string) (xml : option BlastResults) (err : option string)
      (elapsed : Z).

(** The tool, by the name of the database, its directory and the query. *)
Definition Blastn := string -> string -> string -> blastn_run.

(** [&BlastResults{Error: string(out), Query: seq}] *)
Definition error_results (out seq : string) : BlastResults :=
  mkBlastResults "" "" [] 0 seq out 0 0.

(** [Blast]: the results or none, the error or none, and the client after. *)
Definition Blast (cfg : Config) (tool : Blastn) (c : Client) (seq : string)
  : Client * option BlastResults * option string :=
  match tool (blastdbName cfg) (blastdbDir cfg) seq with
  | NoPipe err => (c, None, Some err)
  | Ran out _ (Some err) _ => (c, Some (error_results out seq), Some err)
  | Ran out xml None elapsed =>
      let '(c', parsed) := parseResults cfg c xml in
      match parsed with
      | inl err => (c', None, Some err)
      | inr results =>
          (c',
           Some (mkBlastResults (Version results) (Reference results)
                   (BlastHits results) (DBNum results) seq (Error results)
                   elapsed (len (BlastHits results))),
           None)
      end
  end.

(** The tool of the scenario: it finds the two hits, in 3 ms. *)
Definition scenario_blastn : Blastn :=
  fun _ _ _ => Ran "<BlastOutput/>" (Some scenario_results) None 3000000.

Definition failing_blastn : Blastn :=
  fun _ _ _ => Ran "BLAST Database error" None (Some "exit status 2") 1000000.

(** ** Bytes, digits and digests *)

Arguments Hash : simpl never.
Arguments fasta_name : simpl never.
Arguments fasta_file : simpl never.
Arguments seq_key : simpl never.

Lemma length_hex bs : String.length (GoStrings.hex bs) = (2 * List.length bs)%nat.
Proof. induction bs as [|x bs IH]; simpl; [reflexivity | rewrite IH; lia]. Qed.

Lemma hex_digit_lower n :
  0 <= n < 16 -> GoStrings.is_hex_lower (GoStrings.hex_digit n) = true.
Proof.
  intros Hn.
  rewrite <- (Z2Nat.id n) by lia.
  assert (Hm : (Z.to_nat n < 16)%nat) by lia.
  revert Hm. generalize (Z.to_nat n) as m. intros m Hm.
  do 16 (destruct m as [|m]; [reflexivity|]). lia.
Qed.

Lemma hex_lower bs : GoStrings.all_chars GoStrings.is_hex_lower (GoStrings.hex bs) = true.
Proof.
  induction bs as [|x bs IH]; simpl; [reflexivity|].
  rewrite IH, !hex_digit_lower; [reflexivity | |].
  - change 15 with (Z.ones 4). rewrite Z.land_ones by lia.
    apply Z.mod_pos_bound. lia.
  - apply Z.mod_pos_bound. lia.
Qed.

Lemma length_Sum msg : List.length (SHA1.Sum msg) = 20%nat.
Proof. unfold SHA1.Sum. cbv zeta. rewrite !length_app. reflexivity. Qed.

(** The digests of FIPS 180: the empty message, one block, two blocks. *)
Example sha1_empty :
  GoStrings.hex (SHA1.Sum (GoStrings.bytes_of_string ""))
  = "da39a3ee5e6b4b0d3255bfef95601890afd80709".
Proof. vm_compute. reflexivity. Qed.

Example sha1_abc :
  GoStrings.hex (SHA1.Sum (GoStrings.bytes_of_string "abc"))
  = "a9993e364706816aba3e25717850c26c9cd0d89d".
Proof. vm_compute. reflexivity. Qed.

Example sha1_two_blocks :
  GoStrings.hex (SHA1.Sum (GoStrings.bytes_of_string
    "abcdbcdecdefdefgefghfghighijhijkijkljklmklmnlmnomnopnopq"))
  = "84983e441c3bd26ebaae4aa1f95129e5e54670f1".
Proof. vm_compute. reflexivity. Qed.

Lemma Hash_is_hash s : is_hash (Hash s) = true.
Proof.
  unfold is_hash, Hash. rewrite length_hex, length_Sum, hex_lower. reflexivity.
Qed.

(** Splitting the conjunctions that are written as such. *)
Ltac splits := repeat match goal with |- _ /\ _ => split end.

(** ** Strings *)

Lemma append_cons c s t : String c s +:+ t = String c (s +:+ t).
Proof. reflexivity. Qed.

Lemma append_assoc (s t u : string) : (s +:+ t) +:+ u = s +:+ t +:+ u.
Proof.
  induction s as [|c s IH]; [reflexivity|].
  rewrite !append_cons, IH. reflexivity.
Qed.

Lemma length_append (s t : string) :
  String.length (s +:+ t) = (String.length s + String.length t)%nat.
Proof.
  induction s as [|c s IH]; [reflexivity|].
  rewrite append_cons. simpl. rewrite IH. reflexivity.
Qed.

Lemma append_inj_same_length (s s' t t' : string) :
  String.length s = String.length s' -> s +:+ t = s' +:+ t' -> s = s'.
Proof.
  revert s'. induction s as [|c s IH]; intros [|c' s'] Hlen Heq;
    simpl in Hlen; try discriminate; [reflexivity|].
  rewrite !append_cons in Heq. injection Heq as -> Heq.
  f_equal. apply IH; [lia | assumption].
Qed.

Lemma prefix_append (p s : string) : String.prefix p (p +:+ s) = true.
Proof.
  induction p as [|c p IH]; [destruct s; reflexivity|].
  rewrite append_cons. simpl. destruct (ascii_dec c c); [assumption | congruence].
Qed.

Lemma all_chars_append p (s t : string) :
  GoStrings.all_chars p (s +:+ t)
  = GoStrings.all_chars p s && GoStrings.all_chars p t.
Proof.
  induction s as [|c s IH]; [reflexivity|].
  rewrite append_cons. simpl. rewrite IH, andb_assoc. reflexivity.
Qed.

Lemma all_chars_impl (p q : ascii -> bool) s :
  (forall c, p c = true -> q c = true) ->
  GoStrings.all_chars p s = true -> GoStrings.all_chars q s = true.
Proof.
  intros Hpq. induction s as [|c s IH]; simpl; [reflexivity|].
  intros [Hc Hs]%andb_prop. rewrite (Hpq _ Hc), (IH Hs). reflexivity.
Qed.



(** ** Decimal integers *)

Lemma to_int_proper z : Z.to_int z <> Decimal.Pos Decimal.Nil
                        /\ Z.to_int z <> Decimal.Neg Decimal.Nil.
Proof.
  destruct z as [|p|p]; simpl; split; try discriminate;
    intros [= H]; exact (DecimalPos.Unsigned.to_uint_nonnil p H).
Qed.

Lemma ParseInt_FormatInt z :
  Strconv.in_int64 z = true -> Strconv.ParseInt (Strconv.FormatInt z) = Some z.
Proof.
  intros Hz. unfold Strconv.FormatInt.
  destruct (to_int_proper z) as [Hp Hn].
  pose proof (DecimalString.NilZero.isi _ Hp Hn) as Hisi.
  unfold Strconv.ParseInt.
  destruct (DecimalString.NilZero.string_of_int (Z.to_int z)) as [|c s] eqn:Hs;
    [simpl in Hisi; discriminate Hisi|].
  destruct (Ascii.eqb c "+") eqn:Hc.
  - apply Ascii.eqb_eq in Hc. subst c. simpl in Hisi.
    destruct (DecimalString.NilEmpty.uint_of_string s); discriminate Hisi.
  - rewrite Hisi. simpl. rewrite DecimalZ.of_to, Hz. reflexivity.
Qed.

Lemma string2ll_FormatInt z :
  Strconv.in_int64 z = true -> Redis.string2ll (Strconv.FormatInt z) = Some z.
Proof.
  intros Hz. unfold Redis.string2ll. rewrite (ParseInt_FormatInt _ Hz). simpl.
  rewrite String.eqb_refl. reflexivity.
Qed.

Lemma string2ll_in_int64 s z :
  Redis.string2ll s = Some z -> Strconv.in_int64 z = true.
Proof.
  unfold Redis.string2ll, Strconv.ParseInt. destruct s as [|c s]; [discriminate|].
  destruct (if Ascii.eqb c "+" then _ else _) as [y|]; simpl; [|discriminate].
  destruct (Strconv.in_int64 y) eqn:Hy; simpl; [|discriminate].
  destruct (String.eqb _ _); [|discriminate]. intros [= <-]. exact Hy.
Qed.

(** ** Paths *)

Lemma components_nonempty s : Path.components s <> [].
Proof.
  destruct s as [|c s]; simpl; [discriminate|].
  destruct (Ascii.eqb c Path.slash); [discriminate|].
  destruct (Path.components s); discriminate.
Qed.

Lemma components_no_slash s : no_slash s = true -> Path.components s = [s].
Proof.
  induction s as [|c s IH]; simpl; [reflexivity|].
  intros [Hc Hs]%andb_prop. apply negb_true_iff in Hc. rewrite Hc, (IH Hs).
  reflexivity.
Qed.

Lemma components_append a b :
  Path.components (a +:+ "/" +:+ b) = Path.components a ++ Path.components b.
Proof.
  induction a as [|c a IH]; [reflexivity|].
  rewrite append_cons. simpl. rewrite IH.
  destruct (Ascii.eqb c Path.slash); [reflexivity|].
  pose proof (components_nonempty a).
  destruct (Path.components a); [congruence | reflexivity].
Qed.

Lemma clean_step_name rooted out e :
  (2 < String.length e)%nat -> Path.clean_step rooted out e = e :: out.
Proof.
  intros He. unfold Path.clean_step.
  destruct (String.eqb_spec e ""); [subst; simpl in He; lia|].
  destruct (String.eqb_spec e "."); [subst; simpl in He; lia|].
  destruct (String.eqb_spec e ".."); [subst; simpl in He; lia|].
  reflexivity.
Qed.

Lemma join_slash_snoc l e :
  Path.join_slash (l ++ [e])
  = match l with [] => e | _ => Path.join_slash l +:+ "/" +:+ e end.
Proof.
  induction l as [|x l IH]; [reflexivity|].
  destruct l as [|y l]; [reflexivity|].
  change (Path.join_slash ((x :: y :: l) ++ [e]))
    with (x +:+ "/" +:+ Path.join_slash ((y :: l) ++ [e])).
  rewrite IH.
  change (Path.join_slash (x :: y :: l))
    with (x +:+ "/" +:+ Path.join_slash (y :: l)).
  rewrite !append_assoc. reflexivity.
Qed.

(** Joining a directory and a file name puts the name, as it is, after a
    prefix that the directory alone decides. *)
Lemma Join_name dir :
  exists pre, forall name,
    no_slash name = true -> (2 < String.length name)%nat ->
    Path.Join dir name = pre +:+ name.
Proof.
  destruct dir as [|c dir].
  - exists "". intros name Hs Hl. unfold Path.Join. simpl.
    destruct (String.eqb_spec name ""); [subst; simpl in Hl; lia|].
    unfold Path.Clean. destruct name as [|d name]; [congruence|].
    rewrite (components_no_slash _ Hs). simpl.
    rewrite (clean_step_name _ _ _ Hl). simpl.
    simpl in Hs. apply andb_prop in Hs as [Hd _]. apply negb_true_iff in Hd.
    rewrite Hd. reflexivity.
  - set (rooted := Ascii.eqb c Path.slash).
    set (out := fold_left (Path.clean_step rooted) (Path.components (String c dir)) []).
    exists ((if rooted then "/" else "")
            +:+ match rev out with [] => "" | l => Path.join_slash l +:+ "/" end).
    intros name Hs Hl. unfold Path.Join.
    change (String.eqb (String c dir) "") with false. cbv iota.
    rewrite append_cons. unfold Path.Clean. rewrite <- append_cons.
    rewrite components_append, (components_no_slash _ Hs), fold_left_app.
    fold rooted. fold out. simpl fold_left.
    rewrite (clean_step_name _ _ _ Hl). simpl rev. rewrite join_slash_snoc.
    assert (Hne : forall pre, String.eqb (pre +:+ name) "" = false).
    { intros pre. apply String.eqb_neq. intros Heq.
      apply (f_equal String.length) in Heq. rewrite length_append in Heq.
      simpl in Heq. lia. }
    destruct rooted.
    + destruct (rev out); rewrite ?append_assoc; reflexivity.
    + destruct (rev out) as [|x l].
      * change (name =? "")%string with ("" +:+ name =? "")%string.
        rewrite (Hne ""). reflexivity.
      * rewrite <- (append_assoc _ "/" name), (Hne _), !append_assoc. reflexivity.
Qed.

Lemma hash_name_ok h :
  is_hash h = true ->
  no_slash (h +:+ ".fasta") = true /\ (2 < String.length (h +:+ ".fasta"))%nat.
Proof.
  unfold is_hash. intros [Hlen Hhex]%andb_prop. split.
  - unfold no_slash. rewrite all_chars_append. apply andb_true_intro. split.
    + revert Hhex. apply all_chars_impl. intros c Hc.
      destruct (Ascii.eqb_spec c Path.slash); [subst c; discriminate Hc | reflexivity].
    + reflexivity.
  - rewrite length_append. simpl. lia.
Qed.

Lemma fasta_name_inj cfg h h' :
  is_hash h = true -> is_hash h' = true ->
  fasta_name cfg h = fasta_name cfg h' -> h = h'.
Proof.
  intros Hh Hh' Heq. unfold fasta_name in Heq.
  destruct (Join_name (fastaDir cfg)) as [pre Hpre].
  destruct (hash_name_ok _ Hh) as [? ?], (hash_name_ok _ Hh') as [? ?].
  rewrite !Hpre in Heq by assumption.
  apply (inj (String.append pre)) in Heq.
  apply append_inj_same_length in Heq; [assumption|].
  unfold is_hash in Hh, Hh'.
  apply andb_prop in Hh as [Hl _]. apply andb_prop in Hh' as [Hl' _].
  apply Nat.eqb_eq in Hl, Hl'. congruence.
Qed.

Lemma seq_key_inj cfg h h' : seq_key cfg h = seq_key cfg h' -> h = h'.
Proof.
  unfold seq_key. intros Heq.
  apply (inj (String.append _)) in Heq. apply (inj (String.append _)) in Heq.
  exact Heq.
Qed.

Lemma keys_apart_ne cfg h :
  keys_apart cfg = true -> redisDedupSetKey cfg <> seq_key cfg h.
Proof.
  unfold keys_apart, seq_key. intros Hk Heq. apply negb_true_iff in Hk.
  rewrite Heq, <- append_assoc, prefix_append in Hk. discriminate.
Qed.

(** ** Runs and what they keep *)

Lemma final_bind {A B} (m : M A) (k : A -> M B) w :
  final (bind m k w)
  = match m w with Ok a w' => final (k a w') | Fatal _ w' => w' end.
Proof. unfold bind. destruct (m w); reflexivity. Qed.

Section Always.
Variable P : World -> World -> Prop.
Hypothesis P_refl : forall w, P w w.
Hypothesis P_trans : forall a b c, P a b -> P b c -> P a c.

Lemma always_ret {A} (a : A) : always P (ret a).
Proof. intros w. apply P_refl. Qed.

Lemma always_fatal {A} msg : always P (@fatal A msg).
Proof. intros w. apply P_refl. Qed.

Lemma always_bind {A B} (m : M A) (k : A -> M B) :
  always P m -> (forall a, always P (k a)) -> always P (bind m k).
Proof.
  intros Hm Hk w. rewrite final_bind. specialize (Hm w).
  destruct (m w) as [a w'|msg w']; simpl in Hm; [|exact Hm].
  eapply P_trans; [exact Hm | apply Hk].
Qed.
End Always.

Lemma kept_refl w : kept w w.
Proof. split; [auto | intros k ms H; exists ms; split; [exact H | set_solver]]. Qed.

Lemma kept_trans a b c : kept a b -> kept b c -> kept a c.
Proof.
  intros [Hf1 Hs1] [Hf2 Hs2]. split; [auto|].
  intros k ms H. destruct (Hs1 _ _ H) as (ms1 & H1 & Hsub1).
  destruct (Hs2 _ _ H1) as (ms2 & H2 & Hsub2).
  exists ms2. split; [exact H2 | set_solver].
Qed.

Lemma stable_refl w : stable w w.
Proof. split; [apply kept_refl | auto]. Qed.

Lemma stable_trans a b c : stable a b -> stable b c -> stable a c.
Proof.
  intros [Hk1 Hs1] [Hk2 Hs2]. split; [eapply kept_trans; eassumption | auto].
Qed.

Lemma exec_SADD k m d :
  Redis.exec (Redis.SADD k m) d
  = if settable (d !! k)
    then (Redis.RInt (if decide (m ∈ members_of (d !! k)) then 0 else 1), sadd k m d)
    else (Redis.RErr Redis.wrongtype, d).
Proof.
  unfold sadd. simpl. destruct (d !! k) as [[s|ms|]|]; simpl; try reflexivity.
  rewrite decide_False by set_solver. rewrite (left_id_L ∅ (∪)). reflexivity.
Qed.

Lemma sadd_lookup k m d k' :
  sadd k m d !! k'
  = if decide (k = k') then Some (Redis.VSet (members_of (d !! k) ∪ {[ m ]}))
    else d !! k'.
Proof. unfold sadd. apply lookup_insert. Qed.

Lemma always_WriteFile f data : always stable (WriteFile f data).
Proof.
  intros w. unfold WriteFile. destruct (writable w f); simpl; [|apply stable_refl].
  split; [split|]; simpl; auto.
  - intros f' Hf'. rewrite lookup_insert. case_decide; [eauto | exact Hf'].
  - intros k ms H. exists ms. split; [exact H | set_solver].
Qed.

Lemma always_SADD k m : always stable (Cmd (Redis.SADD k m)).
Proof.
  intros w. unfold Cmd. rewrite exec_SADD.
  destruct (settable (redis w !! k)) eqn:Hset; simpl.
  - split; [split|]; simpl; auto.
    + intros k' ms H. rewrite sadd_lookup. case_decide as Hk.
      * subst k'. rewrite H. simpl. eexists. split; [reflexivity | set_solver].
      * exists ms. split; [exact H | set_solver].
    + intros k' s H. rewrite sadd_lookup. case_decide as Hk; [|exact H].
      subst k'. rewrite H in Hset. discriminate.
  - destruct w; apply stable_refl.
Qed.

Lemma always_process_one cfg seq : always stable (process_one cfg seq).
Proof.
  pose proof stable_refl. pose proof stable_trans.
  unfold process_one.
  apply always_bind; auto using always_WriteFile. intros [e|]; [apply always_fatal; auto|].
  apply always_bind; auto using always_SADD. intros r.
  destruct (Redis.Err r); [apply always_fatal; auto|].
  apply always_bind; auto using always_SADD. intros r'.
  destruct (Redis.Err r'); [apply always_fatal | apply always_ret]; auto.
Qed.

Lemma always_process cfg seqs : always stable (process cfg seqs).
Proof.
  induction seqs as [|seq seqs IH]; simpl.
  - apply always_ret, stable_refl.
  - apply always_bind; [apply stable_trans | apply always_process_one |].
    intros _. exact IH.
Qed.

(** Parsing and fetching leave the world as it is. *)
Lemma parse_results_world rs w : final (parse_results rs w) = w.
Proof.
  revert w. induction rs as [|r rs IH]; intros w; simpl; [reflexivity|].
  destruct (parseSparqlTime _); [|reflexivity].
  rewrite final_bind. specialize (IH w).
  destruct (parse_results rs w); simpl in *; assumption.
Qed.

Lemma parse_world bytes w : final (parse bytes w) = w.
Proof. destruct bytes; [apply parse_results_world | reflexivity]. Qed.

Lemma fetch_world cfg up offset w : final (fetch cfg up offset w) = w.
Proof. unfold fetch. destruct (up _ _); reflexivity. Qed.

Lemma parse_results_Ok rs w seqs w' :
  parse_results rs w = Ok seqs w' -> w' = w /\ Forall2 parsed_from rs seqs.
Proof.
  revert seqs. induction rs as [|r rs IH]; intros seqs; simpl.
  - intros [= <- <-]. split; [reflexivity | constructor].
  - destruct (parseSparqlTime _) as [t|] eqn:Ht; [|discriminate]. unfold bind.
    destruct (parse_results rs w) as [rest w1|]; [|discriminate].
    intros [= <- <-]. destruct (IH rest eq_refl) as [-> Hall].
    split; [reflexivity|]. constructor; [|exact Hall].
    repeat split; simpl; auto.
Qed.



Lemma parse_results_length rs w seqs w' :
  parse_results rs w = Ok seqs w' -> length seqs = length rs.
Proof.
  intros [_ H]%parse_results_Ok. symmetry. exact (Forall2_length _ _ _ H).
Qed.

(** ** The storing phase as a function of the world *)

Lemma World_eq a b :
  redis a = redis b -> fastas a = fastas b -> writable a = writable b -> a = b.
Proof. destruct a, b. simpl. congruence. Qed.

Lemma Cmd_SADD k m w :
  Cmd (Redis.SADD k m) w
  = if settable (redis w !! k)
    then Ok (Redis.RInt (if decide (m ∈ members_of (redis w !! k)) then 0 else 1))
            (mkWorld (sadd k m (redis w)) (fastas w) (writable w))
    else Ok (Redis.RErr Redis.wrongtype) w.
Proof.
  unfold Cmd. rewrite exec_SADD. destruct (settable _); [reflexivity|].
  destruct w; reflexivity.
Qed.

Lemma process_one_Ok cfg seq w :
  can_step cfg seq w = true -> process_one cfg seq w = Ok tt (step cfg seq w).
Proof.
  unfold can_step. intros [[Hw H1]%andb_prop H2]%andb_prop.
  unfold process_one, bind, WriteFile. rewrite Hw, Cmd_SADD. simpl.
  rewrite H1. simpl. rewrite Cmd_SADD. simpl. rewrite H2. reflexivity.
Qed.

Lemma process_one_Fatal cfg seq w :
  can_step cfg seq w = false -> exists msg w', process_one cfg seq w = Fatal msg w'.
Proof.
  unfold can_step, process_one, bind, WriteFile. intros H.
  destruct (writable w _); simpl in *; [|eauto].
  rewrite Cmd_SADD. simpl.
  destruct (settable (redis w !! _)); simpl in *; [|eauto].
  rewrite Cmd_SADD. simpl. rewrite H. simpl. eauto.
Qed.

Lemma process_Ok_iff cfg seqs w w' :
  process cfg seqs w = Ok tt w'
  <-> can_steps cfg seqs w = true /\ w' = steps cfg seqs w.
Proof.
  revert w. induction seqs as [|seq seqs IH]; intros w; simpl.
  - unfold ret. split; [intros [= <-]; auto | intros [_ ->]; reflexivity].
  - unfold bind. destruct (can_step cfg seq w) eqn:Hc.
    + rewrite (process_one_Ok _ _ _ Hc). simpl. apply IH.
    + destruct (process_one_Fatal _ _ _ Hc) as (msg & w1 & ->).
      split; [discriminate | intros [[=] _]].
Qed.

Lemma writable_steps cfg seqs w : writable (steps cfg seqs w) = writable w.
Proof. revert w. induction seqs as [|s l IH]; intros w; simpl; [|rewrite IH]; reflexivity. Qed.

Lemma redis_step cfg seq w k :
  redis (step cfg seq w) !! k
  = if decide (k ∈ ({[ redisDedupSetKey cfg; seq_key cfg (Hash seq) ]} : gset string))
    then Some (Redis.VSet (members_of (redis w !! k) ∪ adds_one cfg seq k))
    else redis w !! k.
Proof.
  unfold step, adds_one. simpl. rewrite !sadd_lookup.
  destruct (decide (redisDedupSetKey cfg = k)) as [<-|Hdk];
    destruct (decide (seq_key cfg (Hash seq) = redisDedupSetKey cfg)) as [Hkey|Hkey];
    try rewrite Hkey in *;
    repeat case_decide; simpl; try congruence; try reflexivity;
    try (exfalso; set_solver); try (f_equal; f_equal; set_solver).
Qed.

Lemma adds_one_untouched cfg seq k :
  k ∉ ({[ redisDedupSetKey cfg; seq_key cfg (Hash seq) ]} : gset string) ->
  adds_one cfg seq k = ∅.
Proof. unfold adds_one. intros Hk. repeat case_decide; set_solver. Qed.

Lemma adds_untouched cfg seqs k : k ∉ touched cfg seqs -> adds cfg seqs k = ∅.
Proof.
  induction seqs as [|seq seqs IH]; simpl; [reflexivity|]. intros Hk.
  rewrite adds_one_untouched, IH by set_solver. set_solver.
Qed.

Lemma touched_dedup cfg seq seqs : redisDedupSetKey cfg ∈ touched cfg (seq :: seqs).
Proof. simpl. set_solver. Qed.

Lemma touched_key cfg seq seqs : seq_key cfg (Hash seq) ∈ touched cfg (seq :: seqs).
Proof. simpl. set_solver. Qed.

Lemma redis_steps cfg seqs w k :
  redis (steps cfg seqs w) !! k
  = if decide (k ∈ touched cfg seqs)
    then Some (Redis.VSet (members_of (redis w !! k) ∪ adds cfg seqs k))
    else redis w !! k.
Proof.
  revert w. induction seqs as [|seq seqs IH]; intros w; simpl.
  - rewrite decide_False by set_solver. reflexivity.
  - rewrite IH, redis_step. clear IH.
    destruct (decide (k ∈ touched cfg seqs)) as [Hl|Hl];
      [|rewrite (adds_untouched _ _ _ Hl)];
      (destruct (decide (k ∈ _)) as [Hs|Hs];
       [|rewrite (adds_one_untouched _ _ _ Hs)]);
      simpl; (rewrite decide_True by set_solver) || (rewrite decide_False by set_solver);
      try reflexivity; f_equal; f_equal; set_solver.
Qed.

Lemma fastas_steps cfg seqs w f :
  fastas (steps cfg seqs w) !! f
  = match last_write cfg seqs f with
    | Some data => Some data
    | None => fastas w !! f
    end.
Proof.
  revert w. induction seqs as [|seq seqs IH]; intros w; simpl; [reflexivity|].
  rewrite IH. destruct (last_write cfg seqs f); [reflexivity|].
  simpl. rewrite lookup_insert. case_decide; reflexivity.
Qed.

Lemma can_steps_writable cfg seqs w :
  can_steps cfg seqs w = true ->
  Forall (fun seq => writable w (fasta_name cfg (Hash seq)) = true) seqs.
Proof.
  revert w. induction seqs as [|seq seqs IH]; intros w; simpl; [constructor|].
  intros [Hc Hr]%andb_prop. constructor.
  - unfold can_step in Hc. apply andb_prop in Hc as [[Hw _]%andb_prop _]. exact Hw.
  - apply (IH _ Hr).
Qed.

Lemma can_steps_intro cfg seqs w :
  Forall (fun seq => writable w (fasta_name cfg (Hash seq)) = true) seqs ->
  (forall k, k ∈ touched cfg seqs -> settable (redis w !! k) = true) ->
  can_steps cfg seqs w = true.
Proof.
  revert w. induction seqs as [|seq seqs IH]; intros w Hw Hk; simpl; [reflexivity|].
  inversion Hw as [|? ? Hw1 Hw2]; subst.
  apply andb_true_intro. split.
  - unfold can_step. rewrite Hw1, (Hk (redisDedupSetKey cfg)) by (simpl; set_solver).
    simpl. rewrite sadd_lookup. case_decide; [reflexivity|].
    apply Hk. simpl. set_solver.
  - apply IH; [exact Hw2|]. intros k Hin. rewrite redis_step.
    case_decide; [reflexivity|]. apply Hk. simpl. set_solver.
Qed.

(** Running the storing phase again on the world it left changes nothing. *)
Lemma steps_idem cfg seqs w :
  steps cfg seqs (steps cfg seqs w) = steps cfg seqs w.
Proof.
  apply World_eq.
  - apply map_eq. intros k. rewrite (redis_steps cfg seqs (steps cfg seqs w)).
    rewrite !redis_steps. case_decide; [|reflexivity].
    simpl. f_equal. f_equal. set_solver.
  - apply map_eq. intros f. rewrite (fastas_steps cfg seqs (steps cfg seqs w)).
    rewrite !fastas_steps. destruct (last_write cfg seqs f); reflexivity.
  - rewrite !writable_steps. reflexivity.
Qed.

Lemma can_steps_again cfg seqs w :
  can_steps cfg seqs w = true -> can_steps cfg seqs (steps cfg seqs w) = true.
Proof.
  intros Hc. apply can_steps_intro.
  - rewrite writable_steps. apply (can_steps_writable _ _ _ Hc).
  - intros k Hk. rewrite redis_steps, decide_True by exact Hk. reflexivity.
Qed.

(** ** Dedup, hashes and files *)

(** C1. Two records with the same normalized sequence and two identifiers,
    stored by [process] in an empty world: the run ends well, the sequence
    store holds exactly one file, the one named by the shared hash; redis
    holds the set of hashes and one set for the hash, and that set contains
    both identifiers (it is exactly the two of them when the key of the set
    of hashes is not a key of a hash). *)
Theorem C1_dedup_two_records cfg (r1 r2 : sequence) (wr : string -> bool) :
  Sequence r1 = Sequence r2 ->
  URI r1 <> URI r2 ->
  wr (fasta_name cfg (Hash r1)) = true ->
  exists w,
    process cfg [r1; r2] (mkWorld ∅ ∅ wr) = Ok tt w
    /\ Hash r2 = Hash r1
    /\ fastas w = {[ fasta_name cfg (Hash r1) := fasta_file (Hash r1) (Sequence r1) ]}
    /\ dom (redis w) = {[ redisDedupSetKey cfg; seq_key cfg (Hash r1) ]}
    /\ URI r1 ∈ identifiersFor cfg (redis w) (Hash r1)
    /\ URI r2 ∈ identifiersFor cfg (redis w) (Hash r1)
    /\ (keys_apart cfg = true ->
        identifiersFor cfg (redis w) (Hash r1) = {[ URI r1; URI r2 ]}
        /\ size (identifiersFor cfg (redis w) (Hash r1)) = 2%nat
        /\ seen cfg (redis w) = {[ Hash r1 ]}).
Proof.
  intros Hseq Huri Hwr.
  assert (Hh : Hash r2 = Hash r1) by (unfold Hash; rewrite Hseq; reflexivity).
  set (w0 := mkWorld ∅ ∅ wr).
  assert (Hcan : can_steps cfg [r1; r2] w0 = true).
  { apply can_steps_intro.
    - repeat constructor; simpl; rewrite ?Hh; exact Hwr.
    - intros k _. simpl. rewrite lookup_empty. reflexivity. }
  exists (steps cfg [r1; r2] w0). split; [apply process_Ok_iff; auto|].
  split; [exact Hh|].
  assert (Hdk : redisDedupSetKey cfg ∈ touched cfg [r1; r2]) by apply touched_dedup.
  assert (Hkey : seq_key cfg (Hash r1) ∈ touched cfg [r1; r2]) by apply touched_key.
  assert (Hids : forall k, k ∈ touched cfg [r1; r2] ->
            members_of (redis (steps cfg [r1; r2] w0) !! k) = adds cfg [r1; r2] k).
  { intros k Hk. rewrite redis_steps, decide_True by exact Hk. simpl.
    rewrite lookup_empty. simpl. apply (left_id_L ∅ (∪)). }
  unfold identifiersFor, seen. rewrite !Hids by assumption.
  clear Hids Hcan Hdk Hkey. simpl. unfold adds_one. rewrite Hh, <- Hseq.
  rewrite !(decide_True (P := seq_key cfg (Hash r1) = seq_key cfg (Hash r1)))
    by reflexivity.
  rewrite !(decide_True (P := redisDedupSetKey cfg = redisDedupSetKey cfg))
    by reflexivity.
  clear Hh Hseq Hwr w0.
  splits.
  - rewrite insert_insert_eq, insert_empty. reflexivity.
  - unfold sadd. rewrite !dom_insert_L, dom_empty_L. set_solver.
  - set_solver.
  - set_solver.
  - intros Hk. pose proof (keys_apart_ne cfg (Hash r1) Hk) as Hne.
    rewrite !(decide_False (P := redisDedupSetKey cfg = seq_key cfg (Hash r1)))
      by exact Hne.
    rewrite !(decide_False (P := seq_key cfg (Hash r1) = redisDedupSetKey cfg))
      by congruence.
    clear Hk Hne.
    assert (Hid : (∅ ∪ {[URI r1]} ∪ (∅ ∪ {[URI r2]} ∪ ∅) : gset string)
                  = {[ URI r1; URI r2 ]}) by set_solver.
    rewrite Hid. splits; [reflexivity | | set_solver].
    rewrite size_union, !size_singleton by set_solver. reflexivity.
Qed.

Lemma C1_scenario_witness :
  exists w,
    process default_config [seq_u1; seq_u2] empty_world = Ok tt w
    /\ Hash seq_u2 = Hash seq_u1
    /\ fastas w = {[ fasta_name default_config (Hash seq_u1)
                     := fasta_file (Hash seq_u1) (Sequence seq_u1) ]}
    /\ dom (redis w)
       = {[ redisDedupSetKey default_config; seq_key default_config (Hash seq_u1) ]}
    /\ URI seq_u1 ∈ identifiersFor default_config (redis w) (Hash seq_u1)
    /\ URI seq_u2 ∈ identifiersFor default_config (redis w) (Hash seq_u1)
    /\ (keys_apart default_config = true ->
        identifiersFor default_config (redis w) (Hash seq_u1)
        = {[ URI seq_u1; URI seq_u2 ]}
        /\ size (identifiersFor default_config (redis w) (Hash seq_u1)) = 2%nat
        /\ seen default_config (redis w) = {[ Hash seq_u1 ]}).
Proof.
  apply (C1_dedup_two_records default_config seq_u1 seq_u2 (fun _ => true)).
  - reflexivity.
  - discriminate.
  - reflexivity.
Defined.

Lemma last_write_Some cfg seqs f data :
  last_write cfg seqs f = Some data ->
  exists s, s ∈ seqs /\ fasta_name cfg (Hash s) = f
            /\ data = fasta_file (Hash s) (Sequence s).
Proof.
  induction seqs as [|seq seqs IH]; simpl; [discriminate|].
  destruct (last_write cfg seqs f) as [d|].
  - intros [= ->]. destruct (IH eq_refl) as (s & Hs & Hrest).
    exists s. split; [set_solver | exact Hrest].
  - case_decide as Hf; [|discriminate]. intros [= <-].
    exists seq. split; [set_solver | auto].
Qed.

Lemma last_write_None cfg seqs f s :
  last_write cfg seqs f = None -> s ∈ seqs -> fasta_name cfg (Hash s) <> f.
Proof.
  induction seqs as [|seq seqs IH]; simpl; [set_solver|].
  destruct (last_write cfg seqs f) as [d|]; [discriminate|].
  case_decide as Hf; [discriminate|]. intros _ [->|Hin]%elem_of_cons; auto.
Qed.

Lemma process_app cfg a b w :
  process cfg (a ++ b) w = (process cfg a ;; process cfg b) w.
Proof.
  revert w. induction a as [|s a IH]; intros w; simpl; [reflexivity|].
  unfold bind in *. destruct (process_one cfg s w); [apply IH | reflexivity].
Qed.



(** C6. When the storing phase has run well on a page, running it again on
    the same page runs well and leaves the sequence store and the dedup index
    as they were: storing a page twice is storing it once. *)
Theorem C6_process_idempotent cfg seqs w w1 :
  process cfg seqs w = Ok tt w1 ->
  process cfg seqs w1 = Ok tt w1
  /\ process cfg (seqs ++ seqs) w = Ok tt w1.
Proof.
  intros [Hcan ->]%process_Ok_iff.
  assert (Hagain : process cfg seqs (steps cfg seqs w) = Ok tt (steps cfg seqs w)).
  { apply process_Ok_iff. split; [apply can_steps_again, Hcan|].
    symmetry. apply steps_idem. }
  split; [exact Hagain|].
  rewrite process_app. unfold bind.
  rewrite (proj2 (process_Ok_iff cfg seqs w _) (conj Hcan eq_refl)).
  exact Hagain.
Qed.

Lemma C6_scenario_witness :
  process default_config [seq_u1; seq_u2]
    (steps default_config [seq_u1; seq_u2] empty_world)
  = Ok tt (steps default_config [seq_u1; seq_u2] empty_world)
  /\ process default_config ([seq_u1; seq_u2] ++ [seq_u1; seq_u2]) empty_world
     = Ok tt (steps default_config [seq_u1; seq_u2] empty_world).
Proof.
  apply (C6_process_idempotent default_config [seq_u1; seq_u2] empty_world).
  vm_compute. reflexivity.
Defined.

(** C9. The hash of a record is the SHA-1 digest of its normalized sequence
    written as 40 lower-case hexadecimal digits.  After the storing phase
    the file named by the hash [h] of a record of the page holds [>h], a
    line feed, the normalized sequence of a record of the page with hash
    [h] (of that very record when no record of the page with another
    sequence has the same hash), and a line feed. *)
Theorem C9_hash_and_fasta_file cfg seqs w w' seq :
  process cfg seqs w = Ok tt w' ->
  seq ∈ seqs ->
  Hash seq = GoStrings.hex (SHA1.Sum (GoStrings.bytes_of_string (Sequence seq)))
  /\ String.length (Hash seq) = 40%nat
  /\ GoStrings.all_chars GoStrings.is_hex_lower (Hash seq) = true
  /\ (exists seq', seq' ∈ seqs /\ Hash seq' = Hash seq
        /\ fastas w' !! Path.Join (fastaDir cfg) (Hash seq +:+ ".fasta")
           = Some (">" +:+ Hash seq +:+ newline +:+ Sequence seq' +:+ newline))
  /\ ((forall s, s ∈ seqs -> Hash s = Hash seq -> Sequence s = Sequence seq) ->
      fastas w' !! Path.Join (fastaDir cfg) (Hash seq +:+ ".fasta")
      = Some (">" +:+ Hash seq +:+ newline +:+ Sequence seq +:+ newline)).
Proof.
  intros [_ ->]%process_Ok_iff Hin.
  pose proof (Hash_is_hash seq) as Hh. pose proof Hh as Hh'.
  unfold is_hash in Hh'. apply andb_prop in Hh' as [Hlen Hhex].
  apply Nat.eqb_eq in Hlen.
  assert (Hfile : exists seq', seq' ∈ seqs /\ Hash seq' = Hash seq
            /\ fastas (steps cfg seqs w) !! fasta_name cfg (Hash seq)
               = Some (fasta_file (Hash seq) (Sequence seq'))).
  { rewrite fastas_steps.
    destruct (last_write cfg seqs (fasta_name cfg (Hash seq))) as [data|] eqn:Hlw.
    - destruct (last_write_Some _ _ _ _ Hlw) as (s & Hs & Hname & ->).
      apply fasta_name_inj in Hname; auto using Hash_is_hash.
      exists s. rewrite Hname. auto.
    - exfalso. exact (last_write_None _ _ _ _ Hlw Hin eq_refl). }
  repeat split; auto.
  destruct Hfile as (seq' & Hin' & Hh'' & Hf). intros Hsame.
  rewrite <- (Hsame _ Hin' Hh''). exact Hf.
Qed.

Lemma C9_scenario_witness :
  Hash seq_u1
  = GoStrings.hex (SHA1.Sum (GoStrings.bytes_of_string (Sequence seq_u1)))
  /\ String.length (Hash seq_u1) = 40%nat
  /\ GoStrings.all_chars GoStrings.is_hex_lower (Hash seq_u1) = true
  /\ (exists seq', seq' ∈ [seq_u1; seq_u2] /\ Hash seq' = Hash seq_u1
        /\ fastas (steps default_config [seq_u1; seq_u2] empty_world)
             !! Path.Join (fastaDir default_config) (Hash seq_u1 +:+ ".fasta")
           = Some (">" +:+ Hash seq_u1 +:+ newline +:+ Sequence seq' +:+ newline))
  /\ ((forall s, s ∈ [seq_u1; seq_u2] -> Hash s = Hash seq_u1 ->
                 Sequence s = Sequence seq_u1) ->
      fastas (steps default_config [seq_u1; seq_u2] empty_world)
        !! Path.Join (fastaDir default_config) (Hash seq_u1 +:+ ".fasta")
      = Some (">" +:+ Hash seq_u1 +:+ newline +:+ Sequence seq_u1 +:+ newline)).
Proof.
  apply (C9_hash_and_fasta_file default_config [seq_u1; seq_u2] empty_world).
  - vm_compute. reflexivity.
  - set_solver.
Defined.

(** The digest of the scenario, and the file that holds it. *)
Example Hash_acgt : Hash seq_u1 = "9482340281b5fc8f2a298dbbd6b82fe42159b6c5".
Proof. vm_compute. reflexivity. Qed.

Example fasta_name_acgt :
  fasta_name default_config (Hash seq_u1)
  = "/var/synbioblast/fastas/9482340281b5fc8f2a298dbbd6b82fe42159b6c5.fasta".
Proof. vm_compute. reflexivity. Qed.

(** ** The loop of [main] *)

Lemma cursor_inv cfg w c :
  cursor cfg w = Some c ->
  exists s, redis w !! redisOffsetKey cfg = Some (Redis.VStr s)
            /\ Redis.string2ll s = Some c.
Proof.
  unfold cursor. destruct (redis w !! _) as [[s| |]|]; try discriminate. eauto.
Qed.

Lemma stable_cursor cfg w w' c :
  stable w w' -> cursor cfg w = Some c -> cursor cfg w' = Some c.
Proof.
  intros [_ Hs] (s & Hk & Hv)%cursor_inv. unfold cursor.
  rewrite (Hs _ _ Hk). exact Hv.
Qed.

Lemma Cmd_INCRBY cfg n w c :
  cursor cfg w = Some c ->
  Cmd (Redis.INCRBY (redisOffsetKey cfg) n) w
  = if Strconv.in_int64 n && Strconv.in_int64 (c + n)
    then Ok (Redis.RInt (c + n))
           (mkWorld (<[redisOffsetKey cfg := Redis.VStr (Strconv.FormatInt (c + n))]>
                       (redis w))
                    (fastas w) (writable w))
    else Ok (Redis.RErr (if Strconv.in_int64 n then Redis.overflow else Redis.notint)) w.
Proof.
  intros (s & Hk & Hv)%cursor_inv. unfold Cmd. simpl.
  destruct w as [d f wr]. simpl in *.
  destruct (Strconv.in_int64 n); simpl; [|reflexivity].
  rewrite Hk, Hv. destruct (Strconv.in_int64 (c + n)); reflexivity.
Qed.

Lemma cursor_after_INCRBY cfg d f wr v :
  Strconv.in_int64 v = true ->
  cursor cfg (mkWorld (<[redisOffsetKey cfg := Redis.VStr (Strconv.FormatInt v)]> d) f wr)
  = Some v.
Proof.
  intros Hv. unfold cursor. simpl. rewrite lookup_insert_eq.
  apply string2ll_FormatInt, Hv.
Qed.

Lemma kept_INCRBY cfg d f wr v s :
  d !! redisOffsetKey cfg = Some (Redis.VStr s) ->
  kept (mkWorld d f wr) (mkWorld (<[redisOffsetKey cfg := Redis.VStr v]> d) f wr).
Proof.
  intros Hk. split; simpl; [auto|]. intros k ms Hms.
  exists ms. rewrite lookup_insert_ne by congruence. split; [exact Hms | set_solver].
Qed.

Lemma cycle_cases cfg up offset c w :
  cursor cfg w = Some c -> cycle_post cfg up offset c w (cycle cfg up offset w).
Proof.
  intros Hc. unfold cycle, bind, fetch.
  destruct (up (resultLimit cfg) offset) as [[r|]|] eqn:Hup; simpl;
    try (split; [exact Hc | apply kept_refl]).
  pose proof (parse_results_world (Results r) w) as Hpw.
  destruct (parse_results (Results r) w) as [seqs w1|msg w1] eqn:Hparse;
    simpl in Hpw; subst w1; [|split; [exact Hc | apply kept_refl]].
  pose proof (always_process cfg seqs w) as Hst.
  destruct (process cfg seqs w) as [[] wp|msg wp] eqn:Hproc; simpl in Hst;
    [|split; [exact (stable_cursor _ _ _ _ Hst Hc) | apply Hst]].
  pose proof (stable_cursor _ _ _ _ Hst Hc) as Hcp.
  rewrite (Cmd_INCRBY _ _ _ _ Hcp).
  destruct (Strconv.in_int64 (len seqs) && Strconv.in_int64 (c + len seqs)) eqn:Hr;
    simpl.
  - apply andb_prop in Hr as [_ Hr].
    assert (Hlen : len seqs = len (Results r))
      by (unfold len; rewrite (parse_results_length _ _ _ _ Hparse); reflexivity).
    assert (Hkept : kept wp (mkWorld (<[redisOffsetKey cfg
                               := Redis.VStr (Strconv.FormatInt (c + len seqs))]>
                              (redis wp)) (fastas wp) (writable wp))).
    { destruct (cursor_inv _ _ _ Hcp) as (s & Hk & _). destruct wp.
      apply (kept_INCRBY _ _ _ _ _ _ Hk). }
    pose proof (cursor_after_INCRBY cfg (redis wp) (fastas wp) (writable wp) _ Hr)
      as Hafter.
    destruct (len seqs <? resultLimit cfg) eqn:Hlt; simpl;
      exists r, seqs, wp; rewrite ?Hlt; repeat split; auto; apply Hkept.
  - destruct (Strconv.in_int64 (len seqs)); simpl;
      (split; [exact Hcp | apply Hst]).
Qed.

Lemma len_nonneg {A} (l : list A) : 0 <= len l.
Proof. unfold len. lia. Qed.

(** What a run of the loop does to a world that holds the cursor [c]. *)
Lemma main_loop_cases cfg ups c w :
  cursor cfg w = Some c ->
  match main_loop cfg ups c w with
  | Ok (last, sleeps) w' =>
      length (page_sizes cfg ups c) = length ups
      /\ last = c + sum (page_sizes cfg ups c)
      /\ cursor cfg w' = Some last
      /\ c <= last
      /\ kept w w'
  | Fatal _ w' => exists c', cursor cfg w' = Some c' /\ c <= c' /\ kept w w'
  end.
Proof.
  revert c w. induction ups as [|up ups IH]; intros c w Hc; simpl.
  - splits; auto; try lia; apply kept_refl.
  - unfold bind. pose proof (cycle_cases cfg up c c w Hc) as Hcyc.
    destruct (cycle cfg up c w) as [[offset' slept] w1|msg w1]; simpl in Hcyc.
    + destruct Hcyc as (r & seqs & wp & Hup & _ & Hlen & Hproc & _ & Hk & -> & Hc1 & _).
      assert (Hkw : kept w w1).
      { eapply kept_trans; [|exact Hk].
        pose proof (always_process cfg seqs w) as [Hst _]. rewrite Hproc in Hst.
        exact Hst. }
      specialize (IH _ _ Hc1). rewrite Hup, <- Hlen.
      pose proof (len_nonneg seqs).
      destruct (main_loop cfg ups (c + len seqs) w1) as [[last sleeps] w2|msg w2];
        simpl.
      * destruct IH as (Hn & -> & Hc2 & Hle & Hk2).
        splits; simpl; auto; try lia. eapply kept_trans; eassumption.
      * destruct IH as (c' & Hc2 & Hle & Hk2). exists c'.
        splits; auto; try lia. eapply kept_trans; eassumption.
    + destruct Hcyc as [Hc1 Hk]. exists c. splits; auto; lia.
Qed.

(** C3. In a world whose cursor is [c] (0 when ingestion starts): after a
    run of successful turns of the loop the cursor, and the offset the loop
    holds, are [c] plus the sizes of the pages answered; whatever the
    outcome of a run the cursor is never below [c]; a turn that ends well
    has stored its whole page before the cursor moves, by the size of that
    page; a turn that ends in a fatal error leaves the cursor at [c], and so
    does the storing phase, wherever it ends. *)
Theorem C3_cursor_advances cfg (ups : list Upstream) (c : Z) (w : World) :
  cursor cfg w = Some c ->
  (forall last sleeps w',
      main_loop cfg ups c w = Ok (last, sleeps) w' ->
      length (page_sizes cfg ups c) = length ups
      /\ last = c + sum (page_sizes cfg ups c)
      /\ cursor cfg w' = Some (c + sum (page_sizes cfg ups c)))
  /\ (exists c', cursor cfg (final (main_loop cfg ups c w)) = Some c' /\ c <= c')
  /\ (forall up offset,
        match cycle cfg up offset w with
        | Ok (offset', _) w' =>
            exists r seqs wp,
              up (resultLimit cfg) offset = Some (Some r)
              /\ parse (Some r) w = Ok seqs w
              /\ len seqs = len (Results r)
              /\ process cfg seqs w = Ok tt wp
              /\ cursor cfg wp = Some c
              /\ offset' = c + len seqs
              /\ cursor cfg w' = Some (c + len seqs)
        | Fatal _ w' => cursor cfg w' = Some c
        end)
  /\ (forall seqs, cursor cfg (final (process cfg seqs w)) = Some c).
Proof.
  intros Hc. pose proof (main_loop_cases cfg ups c w Hc) as Hrun.
  split; [|split; [|split]];
    [| | |intros seqs; exact (stable_cursor _ _ _ _ (always_process cfg seqs w) Hc)].
  - intros last sleeps w' Heq. rewrite Heq in Hrun.
    destruct Hrun as (Hn & Hlast & Hcur & _). subst last. auto.
  - destruct (main_loop cfg ups c w) as [[last sleeps] w'|msg w']; simpl.
    + exists last. destruct Hrun as (_ & _ & Hcur & Hle & _). auto.
    + destruct Hrun as (c' & Hcur & Hle & _). eauto.
  - intros up offset. pose proof (cycle_cases cfg up offset c w Hc) as Hcyc.
    destruct (cycle cfg up offset w) as [[offset' slept] w'|msg w']; simpl in Hcyc.
    + destruct Hcyc as (r & seqs & wp & H1 & H2 & H3 & H4 & H5 & _ & H7 & H8 & _).
      exists r, seqs, wp. auto 10.
    + apply Hcyc.
Qed.

Lemma C3_scenario_witness :
  (forall last sleeps w',
      main_loop default_config [scenario_upstream; scenario_upstream] 0 started_world
      = Ok (last, sleeps) w' ->
      length (page_sizes default_config [scenario_upstream; scenario_upstream] 0)
      = length [scenario_upstream; scenario_upstream]
      /\ last = 0 + sum (page_sizes default_config
                           [scenario_upstream; scenario_upstream] 0)
      /\ cursor default_config w'
         = Some (0 + sum (page_sizes default_config
                            [scenario_upstream; scenario_upstream] 0)))
  /\ (exists c',
        cursor default_config
          (final (main_loop default_config [scenario_upstream; scenario_upstream]
                    0 started_world)) = Some c' /\ 0 <= c')
  /\ (forall up offset,
        match cycle default_config up offset started_world with
        | Ok (offset', _) w' =>
            exists r seqs wp,
              up (resultLimit default_config) offset = Some (Some r)
              /\ parse (Some r) started_world = Ok seqs started_world
              /\ len seqs = len (Results r)
              /\ process default_config seqs started_world = Ok tt wp
              /\ cursor default_config wp = Some 0
              /\ offset' = 0 + len seqs
              /\ cursor default_config w' = Some (0 + len seqs)
        | Fatal _ w' => cursor default_config w' = Some 0
        end)
  /\ (forall seqs,
        cursor default_config (final (process default_config seqs started_world))
        = Some 0).
Proof.
  apply (C3_cursor_advances default_config [scenario_upstream; scenario_upstream]
           0 started_world).
  vm_compute. reflexivity.
Defined.

(** The end-to-end scenario: [main] on the page of two records, then on an
    empty page.  The cursor goes from 0 to 2 and stays there. *)
Example scenario_run :
  exists w,
    main default_config [scenario_upstream; scenario_upstream] empty_world
    = Ok (2, [Hour * 4; Hour * 4]) w
    /\ cursor default_config w = Some 2
    /\ page_sizes default_config [scenario_upstream; scenario_upstream] 0 = [2; 0]
    /\ fastas w = {[ fasta_name default_config (Hash seq_u1)
                     := fasta_file (Hash seq_u1) "acgt" ]}
    /\ identifiersFor default_config (redis w) (Hash seq_u1) = {[ "u1"; "u2" ]}.
Proof.
  exists (final (main default_config [scenario_upstream; scenario_upstream]
                   empty_world)).
  splits; vm_compute; reflexivity.
Qed.

(** [main] when redis holds no offset yet: the loop starts at 0 and, after
    as many turns as it is given, the cursor is the sum of the page sizes. *)
Lemma main_from_scratch cfg ups w last sleeps w' :
  redis w !! redisOffsetKey cfg = None ->
  main cfg ups w = Ok (last, sleeps) w' ->
  last = sum (page_sizes cfg ups 0)
  /\ cursor cfg w' = Some (sum (page_sizes cfg ups 0))
  /\ length (page_sizes cfg ups 0) = length ups.
Proof.
  intros Hk Hmain. unfold main, startup, bind, Cmd in Hmain. simpl in Hmain.
  rewrite Hk in Hmain. simpl in Hmain.
  set (w0 := mkWorld _ _ _) in Hmain.
  assert (Hc : cursor cfg w0 = Some 0).
  { unfold cursor, w0. simpl. rewrite lookup_insert_eq. reflexivity. }
  pose proof (main_loop_cases cfg ups 0 w0 Hc) as Hrun.
  rewrite Hmain in Hrun. destruct Hrun as (Hn & -> & Hcur & _).
  rewrite Z.add_0_l in *. auto.
Qed.

(** C8. A turn of the loop that ends well sleeps four hours when its page
    had fewer records than the result limit, and two seconds otherwise. *)
Theorem C8_backoff cfg up offset w offset' slept w' :
  cycle cfg up offset w = Ok (offset', slept) w' ->
  exists r,
    up (resultLimit cfg) offset = Some (Some r)
    /\ (len (Results r) < resultLimit cfg -> slept = 4 * 3600 * 1000000000)
    /\ (resultLimit cfg <= len (Results r) -> slept = 2 * 1000000000).
Proof.
  intros Hcyc. unfold cycle, bind, fetch in Hcyc.
  destruct (up (resultLimit cfg) offset) as [[r|]|]; simpl in Hcyc;
    try discriminate Hcyc.
  destruct (parse_results (Results r) w) as [seqs w1|] eqn:Hparse;
    [|discriminate Hcyc].
  assert (Hlen : len seqs = len (Results r))
    by (unfold len; rewrite (parse_results_length _ _ _ _ Hparse); reflexivity).
  destruct (process cfg seqs w1) as [[] wp|]; [|discriminate Hcyc].
  destruct (Cmd _ wp) as [rp w2|]; [|discriminate Hcyc].
  destruct (Redis.Int rp); [discriminate Hcyc|].
  rewrite Hlen in Hcyc. exists r. split; [reflexivity|].
  destruct (Z.ltb_spec (len (Results r)) (resultLimit cfg));
    injection Hcyc as <- <- <-; split; intros; try lia; reflexivity.
Qed.

Lemma C8_scenario_witness :
  exists r,
    scenario_upstream (resultLimit default_config) 0 = Some (Some r)
    /\ (len (Results r) < resultLimit default_config ->
        Hour * 4 = 4 * 3600 * 1000000000)
    /\ (resultLimit default_config <= len (Results r) ->
        Hour * 4 = 2 * 1000000000).
Proof.
  apply (C8_backoff default_config scenario_upstream 0 started_world 2 (Hour * 4)
           (final (cycle default_config scenario_upstream 0 started_world))).
  vm_compute. reflexivity.
Defined.

(** A full page: with a result limit of 2 the same page is followed by the
    short sleep. *)
Example full_page_short_sleep :
  exists offset' w,
    cycle (mkConfig "" "" "" 2 "" "sequenceoffset" "sequenceHashSet" "sequence"
             "/var/synbioblast/fastas" 9090)
      scenario_upstream 0 started_world
    = Ok (offset', Second * 2) w.
Proof.
  set (cfg := mkConfig _ _ _ _ _ _ _ _ _ _).
  exists 2, (final (cycle cfg scenario_upstream 0 started_world)).
  vm_compute. reflexivity.
Qed.

(** C10. The start of [main], by what the offset key holds.  Nothing: 0 is
    written under the key and the loop starts at offset 0.  A string that
    reads as an integer: nothing is written and the loop starts at that
    integer.  Anything else: a fatal error, the world as it was. *)
Theorem C10_startup cfg (ups : list Upstream) (w : World) :
  match redis w !! redisOffsetKey cfg with
  | None =>
      let w0 := mkWorld (<[redisOffsetKey cfg := Redis.VStr "0"]> (redis w))
                        (fastas w) (writable w) in
      startup cfg w = Ok 0 w0
      /\ cursor cfg w0 = Some 0
      /\ main cfg ups w = main_loop cfg ups 0 w0
  | Some (Redis.VStr s) =>
      match Strconv.ParseInt s with
      | Some n => startup cfg w = Ok n w
                  /\ main cfg ups w = main_loop cfg ups n w
      | None => exists msg, startup cfg w = Fatal msg w
      end
  | Some _ => exists msg, startup cfg w = Fatal msg w
  end.
Proof.
  unfold main, startup, bind, Cmd. simpl.
  destruct w as [d f wr]. simpl.
  destruct (d !! redisOffsetKey cfg) as [[s|ms|]|] eqn:Hk; simpl.
  - destruct (Strconv.ParseInt s) as [n|]; simpl; [auto|].
    eexists. reflexivity.
  - eexists. reflexivity.
  - eexists. reflexivity.
  - splits; try reflexivity.
    unfold cursor. simpl. rewrite lookup_insert_eq. reflexivity.
Qed.

(** [main] on the empty world, and on a world whose offset is 7. *)
Example startup_empty :
  startup default_config empty_world = Ok 0 started_world.
Proof. vm_compute. reflexivity. Qed.

Example startup_resumes :
  startup default_config
    (mkWorld {[ "sequenceoffset" := Redis.VStr "7" ]} ∅ (fun _ => true))
  = Ok 7 (mkWorld {[ "sequenceoffset" := Redis.VStr "7" ]} ∅ (fun _ => true)).
Proof. vm_compute. reflexivity. Qed.






(** The page with a record without timestamp: fatal, nothing stored. *)
Example missing_created_is_fatal :
  cycle default_config (fun _ _ => Some (Some page_no_created)) 0 started_world
  = Fatal "couldn't parse time: " started_world.
Proof. vm_compute. reflexivity. Qed.

(** ** Reconciliation *)

Arguments lookup_of : simpl never.

Lemma append_lookups_spec cfg c hits :
  append_lookups cfg c hits
  = mkClient (db c) (pending c ++ List.map (lookup_of cfg) hits) (completed c).
Proof.
  revert c. induction hits as [|h hits IH]; intros c; simpl.
  - rewrite app_nil_r. destruct c; reflexivity.
  - rewrite IH. simpl. rewrite <- app_assoc. reflexivity.
Qed.

Lemma exec_SMEMBERS cfg d h :
  settable (d !! seq_key cfg (SeqHash h)) = true ->
  Redis.exec (lookup_of cfg h) d = (reply_of cfg d h, d).
Proof.
  unfold lookup_of, reply_of, identifiersFor. simpl.
  destruct (d !! seq_key cfg (SeqHash h)) as [[s|ms|]|]; simpl;
    try discriminate; intros _; [reflexivity|].
  rewrite elements_empty. reflexivity.
Qed.

Lemma flush_cons c cs d :
  flush (c :: cs) d
  = (let '(r, d') := Redis.exec c d in
     let '(rs, d'') := flush cs d' in (r :: rs, d'')).
Proof. reflexivity. Qed.

Lemma flush_lookups cfg d hits :
  Forall (fun h => settable (d !! seq_key cfg (SeqHash h)) = true) hits ->
  flush (List.map (lookup_of cfg) hits) d = (List.map (reply_of cfg d) hits, d).
Proof.
  induction 1 as [|h hits Hh _ IH]; [reflexivity|].
  cbn [List.map]. rewrite flush_cons, (exec_SMEMBERS _ _ _ Hh), IH. reflexivity.
Qed.

Lemma take_replies_completed cfg d hits :
  take_replies (mkClient d [] (List.map (reply_of cfg d) hits)) hits
  = (mkClient d [] [], List.map (reconciled cfg d) hits, None).
Proof.
  induction hits as [|h hits IH]; simpl; [reflexivity|].
  unfold PipeResp. simpl. rewrite IH. reflexivity.
Qed.

Lemma getURIs_idle cfg c r :
  idle c ->
  Forall (fun h => settable (db c !! seq_key cfg (SeqHash h)) = true) (BlastHits r) ->
  getURIs cfg c r
  = (c, with_hits r (List.map (reconciled cfg (db c)) (BlastHits r)), None).
Proof.
  intros [Hp Hc] Hset. destruct c as [d p q]. simpl in *. subst p q.
  unfold getURIs. rewrite append_lookups_spec. simpl.
  destruct (BlastHits r) as [|h hits] eqn:Hhits; [reflexivity|].
  inversion Hset as [|? ? Hh Hrest]; subst.
  cbn [List.map app take_replies]. unfold PipeResp at 1.
  cbn [completed pending db]. rewrite flush_cons.
  rewrite (exec_SMEMBERS _ _ _ Hh), (flush_lookups _ _ _ Hrest).
  cbn [Redis.List reply_of]. rewrite take_replies_completed. reflexivity.
Qed.

(** C4. With an idle pipeline and every key of a hit absent or a set, the
    lookup ends without error and leaves the client as it was; the hits come
    back as many as they were, in their order, each one unchanged but for its
    URIs, which are the members of the set the dedup index holds for its
    hash, each once; a hash without a set gets no URI and no error. *)
Theorem C4_getURIs_in_order cfg (c : Client) (r : BlastResults) :
  idle c ->
  Forall (fun h => settable (db c !! seq_key cfg (SeqHash h)) = true) (BlastHits r) ->
  exists hits',
    getURIs cfg c r = (c, with_hits r hits', None)
    /\ length hits' = length (BlastHits r)
    /\ (forall i h, BlastHits r !! i = Some h ->
          exists h',
            hits' !! i = Some h'
            /\ h' = with_URIs h (URIs h')
            /\ NoDup (URIs h')
            /\ list_to_set (URIs h') = identifiersFor cfg (db c) (SeqHash h)
            /\ (db c !! seq_key cfg (SeqHash h) = None -> URIs h' = [])).
Proof.
  intros Hidle Hset.
  exists (List.map (reconciled cfg (db c)) (BlastHits r)).
  split; [apply getURIs_idle; assumption|]. split; [apply length_map|].
  intros i h Hi. exists (reconciled cfg (db c) h).
  split; [change List.map with (@fmap list _); rewrite list_lookup_fmap, Hi; reflexivity|].
  unfold reconciled. simpl. splits.
  - reflexivity.
  - apply NoDup_elements.
  - apply list_to_set_elements_L.
  - intros Hnone. unfold identifiersFor. rewrite Hnone. simpl.
    apply elements_empty.
Qed.

Lemma C4_scenario_witness :
  exists hits',
    getURIs default_config scenario_client scenario_results
    = (scenario_client, with_hits scenario_results hits', None)
    /\ length hits' = length (BlastHits scenario_results)
    /\ (forall i h, BlastHits scenario_results !! i = Some h ->
          exists h',
            hits' !! i = Some h'
            /\ h' = with_URIs h (URIs h')
            /\ NoDup (URIs h')
            /\ list_to_set (URIs h')
               = identifiersFor default_config (db scenario_client) (SeqHash h)
            /\ (db scenario_client !! seq_key default_config (SeqHash h) = None ->
                URIs h' = [])).
Proof.
  apply (C4_getURIs_in_order default_config scenario_client scenario_results).
  - split; reflexivity.
  - repeat constructor.
Defined.


(** The hits of the scenario: both URIs for the first, none for the second. *)
Example scenario_lookup :
  exists uris,
    getURIs default_config scenario_client scenario_results
    = (scenario_client,
       with_hits scenario_results [with_URIs hit_acgt uris; hit_unknown], None)
    /\ list_to_set uris = ({[ "u1"; "u2" ]} : gset string).
Proof.
  exists (elements (identifiersFor default_config (db scenario_client)
                      (SeqHash hit_acgt))).
  split; [|vm_compute; reflexivity].
  rewrite getURIs_idle; [reflexivity | split; reflexivity | repeat constructor].
Qed.

(** Outside the hypotheses of C4.  A key of the wrong type is an error, and
    [parseResults] returns no results; a reply left in the pipeline is taken
    for the reply to the first hit. *)
Example wrongtype_is_an_error :
  exists c',
    parseResults default_config broken_client
      (Some (with_hits scenario_results [hit_unknown; hit_acgt]))
    = (c', inl Redis.wrongtype)
    /\ completed c' <> [].
Proof.
  exists (fst (parseResults default_config broken_client
                 (Some (with_hits scenario_results [hit_unknown; hit_acgt])))).
  split; [vm_compute; reflexivity|]. vm_compute. discriminate.
Qed.

Example stale_reply_is_taken :
  exists c',
    getURIs default_config stale_client (with_hits scenario_results [hit_unknown])
    = (c', with_hits scenario_results [with_URIs hit_unknown ["stale"]], None).
Proof. eexists. vm_compute. reflexivity. Qed.

(** ** Store and index *)

Lemma stable_kept w w' : stable w w' -> kept w w'.
Proof. intros [H _]. exact H. Qed.

Lemma always_kept_of_stable {A} (m : M A) : always stable m -> always kept m.
Proof. intros H w. apply stable_kept, H. Qed.

Lemma always_INCRBY k n : always kept (Cmd (Redis.INCRBY k n)).
Proof.
  intros [d f wr]. unfold Cmd. simpl.
  assert (Hins : forall v, d !! k = None \/ (exists s, d !! k = Some (Redis.VStr s)) ->
            kept (mkWorld d f wr) (mkWorld (<[k := Redis.VStr v]> d) f wr)).
  { intros v Hk. split; simpl; [auto|]. intros k' ms Hms. exists ms.
    rewrite lookup_insert_ne; [split; [exact Hms | set_solver]|].
    intros <-. destruct Hk as [Hk | [s Hk]]; congruence. }
  destruct (Strconv.in_int64 n); simpl; [|apply kept_refl].
  destruct (d !! k) as [[s|ms|]|] eqn:Hk; simpl; try apply kept_refl.
  - destruct (Redis.string2ll s); simpl; [|apply kept_refl].
    destruct (Strconv.in_int64 _); simpl; [|apply kept_refl]. apply Hins. eauto.
  - destruct (Strconv.in_int64 _); simpl; [|apply kept_refl]. apply Hins. auto.
Qed.

Lemma always_parse bytes : always kept (parse bytes).
Proof. intros w. rewrite parse_world. apply kept_refl. Qed.

Lemma always_fetch cfg up offset : always kept (fetch cfg up offset).
Proof. intros w. rewrite fetch_world. apply kept_refl. Qed.

Lemma always_cycle cfg up offset : always kept (cycle cfg up offset).
Proof.
  pose proof kept_refl. pose proof kept_trans. unfold cycle.
  apply always_bind; auto using always_fetch. intros bytes.
  apply always_bind; auto using always_parse. intros seqs.
  apply always_bind; auto using always_kept_of_stable, always_process. intros _.
  apply always_bind; auto using always_INCRBY. intros r.
  destruct (Redis.Int r); [apply always_fatal; auto|].
  destruct (_ <? _); apply always_ret; auto.
Qed.

Lemma always_main_loop cfg ups offset : always kept (main_loop cfg ups offset).
Proof.
  pose proof kept_refl. pose proof kept_trans.
  revert offset. induction ups as [|up ups IH]; intros offset; simpl.
  - apply always_ret; auto.
  - apply always_bind; auto using always_cycle. intros [offset' slept].
    apply always_bind; auto. intros [last sleeps]. apply always_ret; auto.
Qed.

Lemma always_startup cfg : always kept (startup cfg).
Proof.
  intros [d f wr]. unfold startup, bind, Cmd. simpl.
  destruct (d !! redisOffsetKey cfg) as [[s|ms|]|] eqn:Hk; simpl;
    try apply kept_refl.
  - destruct (Strconv.ParseInt s); simpl; apply kept_refl.
  - split; simpl; [auto|]. intros k ms Hms. exists ms.
    rewrite lookup_insert_ne by congruence. split; [exact Hms | set_solver].
Qed.

Lemma always_main cfg ups : always kept (main cfg ups).
Proof.
  unfold main. apply always_bind.
  - apply kept_trans.
  - apply always_startup.
  - intros offset. apply always_main_loop.
Qed.

Lemma store_inv_step cfg seq w :
  keys_apart cfg = true -> store_inv cfg w -> store_inv cfg (step cfg seq w).
Proof.
  intros Hk Hinv h Hh. destruct (Hinv h Hh) as [Hiff Hseen].
  pose proof (keys_apart_ne cfg h Hk) as Hdk.
  pose proof (keys_apart_ne cfg (Hash seq) Hk) as Hdk0.
  assert (Hseen' : seen cfg (redis (step cfg seq w))
                   = seen cfg (redis w) ∪ {[ Hash seq ]}).
  { unfold seen. rewrite redis_step, decide_True by set_solver. simpl.
    unfold adds_one. rewrite decide_True, decide_False by congruence. set_solver. }
  destruct (decide (Hash seq = h)) as [<-|Hne].
  - assert (Hfile : is_Some (fastas (step cfg seq w) !! fasta_name cfg (Hash seq))).
    { simpl. rewrite lookup_insert_eq. eauto. }
    split; [|auto]. split; [|auto]. intros _.
    unfold identifiersFor. rewrite redis_step, decide_True by set_solver. simpl.
    unfold adds_one. rewrite (decide_True (P := seq_key _ _ = _)) by reflexivity.
    set_solver.
  - assert (Hname : fasta_name cfg (Hash seq) <> fasta_name cfg h).
    { intros Heq. apply Hne. apply (fasta_name_inj cfg); auto using Hash_is_hash. }
    assert (Hkey : seq_key cfg h ∉ ({[ redisDedupSetKey cfg; seq_key cfg (Hash seq) ]}
                                     : gset string)).
    { intros [Heq|Heq%elem_of_singleton]%elem_of_union.
      - apply elem_of_singleton in Heq. congruence.
      - apply seq_key_inj in Heq. congruence. }
    assert (Hfile : fastas (step cfg seq w) !! fasta_name cfg h
                    = fastas w !! fasta_name cfg h).
    { simpl. apply lookup_insert_ne, Hname. }
    assert (Hids : identifiersFor cfg (redis (step cfg seq w)) h
                   = identifiersFor cfg (redis w) h).
    { unfold identifiersFor. rewrite redis_step, decide_False by exact Hkey.
      reflexivity. }
    rewrite Hfile, Hids, Hseen'. split; [exact Hiff|].
    intros [Hin|Hin%elem_of_singleton]%elem_of_union; [auto | congruence].
Qed.

Lemma store_inv_steps cfg seqs w :
  keys_apart cfg = true -> store_inv cfg w -> store_inv cfg (steps cfg seqs w).
Proof.
  intros Hk. revert w. induction seqs as [|seq seqs IH]; intros w Hinv; simpl;
    [exact Hinv|].
  apply IH, store_inv_step; assumption.
Qed.

Lemma adds_key cfg seqs seq :
  seq ∈ seqs ->
  URI seq ∈ adds cfg seqs (seq_key cfg (Hash seq))
  /\ Hash seq ∈ adds cfg seqs (redisDedupSetKey cfg)
  /\ seq_key cfg (Hash seq) ∈ touched cfg seqs
  /\ redisDedupSetKey cfg ∈ touched cfg seqs.
Proof.
  induction seqs as [|s seqs IH]; [set_solver|].
  intros [->|Hin]%elem_of_cons; simpl.
  - unfold adds_one.
    rewrite (decide_True (P := seq_key cfg (Hash s) = seq_key cfg (Hash s)))
      by reflexivity.
    rewrite (decide_True (P := redisDedupSetKey cfg = redisDedupSetKey cfg))
      by reflexivity.
    set_solver.
  - destruct (IH Hin) as (H1 & H2 & H3 & H4). set_solver.
Qed.

Lemma exec_read c d : is_read c = true -> snd (Redis.exec c d) = d.
Proof.
  destruct c; try discriminate; intros _; simpl;
    destruct (d !! key) as [[s|ms|]|]; reflexivity.
Qed.

Lemma flush_reads cs d : forallb is_read cs = true -> snd (flush cs d) = d.
Proof.
  revert d. induction cs as [|c cs IH]; intros d; [reflexivity|].
  cbn [forallb]. intros [Hc Hcs]%andb_prop. rewrite flush_cons.
  pose proof (exec_read c d Hc) as Hd.
  destruct (Redis.exec c d) as [r d1]. simpl in Hd. subst d1.
  specialize (IH d Hcs). destruct (flush cs d) as [rs d2]. exact IH.
Qed.

Lemma PipeResp_reads c :
  forallb is_read (pending c) = true ->
  db (snd (PipeResp c)) = db c
  /\ forallb is_read (pending (snd (PipeResp c))) = true.
Proof.
  destruct c as [d p q]. unfold PipeResp. cbn [db pending completed].
  intros Hp. destruct q as [|r rest]; [|auto].
  destruct p as [|p ps]; [auto|].
  pose proof (flush_reads (p :: ps) d Hp) as Hd.
  destruct (flush (p :: ps) d) as [[|r rs] d']; simpl in *; auto.
Qed.

Lemma take_replies_reads c hits :
  forallb is_read (pending c) = true ->
  db (fst (fst (take_replies c hits))) = db c.
Proof.
  revert c. induction hits as [|h hits IH]; intros c Hp; [reflexivity|].
  cbn [take_replies]. destruct (PipeResp_reads c Hp) as [Hd Hp'].
  destruct (PipeResp c) as [r c1]. simpl in Hd, Hp'.
  destruct (Redis.List r) as [err|uris]; [exact Hd|].
  specialize (IH c1 Hp'). destruct (take_replies c1 hits) as [[c2 rest] e].
  simpl in *. congruence.
Qed.

(** Looking the hits up changes nothing in redis, whatever the replies. *)
Lemma getURIs_reads cfg c r :
  forallb is_read (pending c) = true ->
  db (fst (fst (getURIs cfg c r))) = db c.
Proof.
  intros Hp. unfold getURIs.
  pose proof (take_replies_reads (append_lookups cfg c (BlastHits r)) (BlastHits r))
    as Hd.
  rewrite append_lookups_spec in *. simpl in Hd.
  destruct (take_replies _ _) as [[c2 hits] err]. simpl in *. apply Hd.
  rewrite forallb_app, Hp. simpl. clear. induction (BlastHits r); auto.
Qed.

(** C7. When the key of the set of hashes is not the key of the set of a
    hash, and store and index agree on every content hash (a file for the
    hash if and only if a non-empty set of identifiers for it, and a file
    for every hash seen), then after a storing phase that ran well they
    agree again, every record of the page has its file, its identifier in
    the set of its hash and its hash in the set of hashes; and no run of
    [process] or of [main], however it ends, removes a file or a member of a
    set, and [getURIs] leaves redis as it is. *)
Theorem C7_store_and_index_agree cfg seqs (ups : list Upstream) w w' :
  keys_apart cfg = true ->
  store_inv cfg w ->
  process cfg seqs w = Ok tt w' ->
  store_inv cfg w'
  /\ (forall seq, seq ∈ seqs ->
        is_Some (fastas w' !! fasta_name cfg (Hash seq))
        /\ URI seq ∈ identifiersFor cfg (redis w') (Hash seq)
        /\ Hash seq ∈ seen cfg (redis w'))
  /\ kept w w'
  /\ (forall page w0, kept w0 (final (process cfg page w0)))
  /\ (forall w0, kept w0 (final (main cfg ups w0)))
  /\ (forall c r, forallb is_read (pending c) = true ->
        db (fst (fst (getURIs cfg c r))) = db c).
Proof.
  intros Hk Hinv Hproc. pose proof (always_process cfg seqs w) as Hst.
  rewrite Hproc in Hst. simpl in Hst.
  apply process_Ok_iff in Hproc as [_ ->].
  splits.
  - apply store_inv_steps; assumption.
  - intros seq Hin. destruct (adds_key cfg seqs seq Hin) as (H1 & H2 & H3 & H4).
    unfold identifiersFor, seen. rewrite !redis_steps, !decide_True by assumption.
    simpl. splits; [|set_solver|set_solver].
    rewrite fastas_steps.
    destruct (last_write cfg seqs _) eqn:Hlw; [eauto|].
    exfalso. exact (last_write_None _ _ _ _ Hlw Hin eq_refl).
  - apply Hst.
  - intros page w0. apply always_kept_of_stable, always_process.
  - intros w0. apply always_main.
  - intros c r. apply getURIs_reads.
Qed.

Lemma store_inv_empty cfg wr : store_inv cfg (mkWorld ∅ ∅ wr).
Proof.
  intros h _. unfold identifiersFor, seen. simpl. rewrite !lookup_empty. simpl.
  split; [split|].
  - intros [x Hx]. discriminate Hx.
  - intros Hne. congruence.
  - set_solver.
Qed.

Lemma C7_scenario_witness :
  store_inv default_config (steps default_config [seq_u1; seq_u2] empty_world)
  /\ (forall seq, seq ∈ [seq_u1; seq_u2] ->
        is_Some (fastas (steps default_config [seq_u1; seq_u2] empty_world)
                   !! fasta_name default_config (Hash seq))
        /\ URI seq ∈ identifiersFor default_config
                       (redis (steps default_config [seq_u1; seq_u2] empty_world))
                       (Hash seq)
        /\ Hash seq ∈ seen default_config
                        (redis (steps default_config [seq_u1; seq_u2] empty_world)))
  /\ kept empty_world (steps default_config [seq_u1; seq_u2] empty_world)
  /\ (forall page w0, kept w0 (final (process default_config page w0)))
  /\ (forall w0, kept w0 (final (main default_config [scenario_upstream] w0)))
  /\ (forall c r, forallb is_read (pending c) = true ->
        db (fst (fst (getURIs default_config c r))) = db c).
Proof.
  apply (C7_store_and_index_agree default_config [seq_u1; seq_u2]
           [scenario_upstream] empty_world).
  - reflexivity.
  - apply store_inv_empty.
  - vm_compute. reflexivity.
Defined.

(** ** More of slurper.go: bindings and parsing *)

(** X1. Of several bindings of a name the first one is read; and a value
    that is not empty always is the value of a binding of that name. *)
Theorem getValue_first_binding (pre post : list binding) (b : binding)
    (name : string) :
  Name b = name ->
  Forall (fun x => Name x <> name) pre ->
  getValue (mkResult (pre ++ b :: post)) name = Value b
  /\ missing (mkResult (pre ++ b :: post)) name = false
  /\ (forall r, getValue r name <> "" ->
        exists x, x ∈ Bindings r /\ Name x = name /\ Value x = getValue r name).
Proof.
  intros Hb Hpre. unfold getValue, missing. simpl. splits.
  - induction Hpre as [|x pre Hx _ IH]; simpl.
    + rewrite (proj2 (String.eqb_eq _ _) Hb). reflexivity.
    + rewrite (proj2 (String.eqb_neq _ _) Hx). exact IH.
  - induction Hpre as [|x pre Hx _ IH]; simpl.
    + rewrite (proj2 (String.eqb_eq _ _) Hb). reflexivity.
    + rewrite IH. apply andb_false_r.
  - intros r. induction (Bindings r) as [|x bs IH]; simpl; [congruence|].
    destruct (String.eqb_spec (Name x) name) as [Hx|Hx].
    + intros _. exists x. split; [set_solver | auto].
    + intros Hv. destruct (IH Hv) as (y & Hy & Hrest).
      exists y. split; [set_solver | exact Hrest].
Qed.

Lemma getValue_first_binding_witness :
  getValue (mkResult ([bind_of "uri" "u1"] ++ bind_of "elements" "ACGT"
                        :: [bind_of "elements" "TTTT"])) "elements"
  = Value (bind_of "elements" "ACGT")
  /\ missing (mkResult ([bind_of "uri" "u1"] ++ bind_of "elements" "ACGT"
                          :: [bind_of "elements" "TTTT"])) "elements" = false
  /\ (forall r, getValue r "elements" <> "" ->
        exists x, x ∈ Bindings r /\ Name x = "elements"
                  /\ Value x = getValue r "elements").
Proof.
  apply (getValue_first_binding [bind_of "uri" "u1"] [bind_of "elements" "TTTT"]
           (bind_of "elements" "ACGT") "elements").
  - reflexivity.
  - repeat constructor. discriminate.
Defined.










(** ** More of [process] *)

Lemma touched_iff cfg seqs k :
  k ∈ touched cfg seqs
  <-> seqs <> []
      /\ (k = redisDedupSetKey cfg
          \/ exists s, s ∈ seqs /\ k = seq_key cfg (Hash s)).
Proof.
  induction seqs as [|seq seqs IH]; simpl.
  - split; [set_solver | intros [H _]; congruence].
  - rewrite !elem_of_union, !elem_of_singleton, IH. split.
    + intros [[->| ->]|(_ & [->|(s & Hs & ->)])]; split; try discriminate; auto.
      * right. exists seq. split; [set_solver | reflexivity].
      * right. exists s. split; [set_solver | reflexivity].
    + intros (_ & [->|(s & Hs & ->)]); [auto|].
      apply elem_of_cons in Hs as [->|Hs]; [auto|].
      right. split; [intros ->; set_solver|]. right. eauto.
Qed.

Lemma can_steps_settable cfg seqs w k :
  can_steps cfg seqs w = true -> k ∈ touched cfg seqs ->
  settable (redis w !! k) = true.
Proof.
  revert w. induction seqs as [|seq seqs IH]; intros w; simpl; [set_solver|].
  intros [Hc Hr]%andb_prop Hk. unfold can_step in Hc.
  apply andb_prop in Hc as [[_ H1]%andb_prop H2].
  assert (Hkey : settable (redis w !! seq_key cfg (Hash seq)) = true).
  { rewrite sadd_lookup in H2. case_decide as Heq; [rewrite <- Heq|]; assumption. }
  destruct (decide (k ∈ ({[ redisDedupSetKey cfg; seq_key cfg (Hash seq) ]}
                          : gset string))) as [Hin|Hout].
  - apply elem_of_union in Hin as [->%elem_of_singleton| ->%elem_of_singleton];
      assumption.
  - assert (Hk' : k ∈ touched cfg seqs) by set_solver.
    specialize (IH _ Hr Hk'). rewrite redis_step, decide_False in IH by exact Hout.
    exact IH.
Qed.

(** X4. Whether the storing phase ends well is decided by the world it starts
    in: it does exactly when every file of the page can be written and the
    key of the set of hashes and the keys of the page's hashes are absent or
    hold sets. *)
Theorem process_succeeds_iff cfg seqs w :
  (exists w', process cfg seqs w = Ok tt w')
  <-> Forall (fun s => writable w (fasta_name cfg (Hash s)) = true) seqs
      /\ (seqs <> [] -> settable (redis w !! redisDedupSetKey cfg) = true)
      /\ Forall (fun s => settable (redis w !! seq_key cfg (Hash s)) = true) seqs.
Proof.
  split.
  - intros [w' [Hcan _]%process_Ok_iff]. splits.
    + apply can_steps_writable, Hcan.
    + intros Hne. apply (can_steps_settable _ _ _ _ Hcan), touched_iff. auto.
    + apply Forall_forall. intros s Hs.
      apply (can_steps_settable _ _ _ _ Hcan), touched_iff.
      split; [intros ->; set_solver | eauto].
  - intros (Hw & Hdk & Hkeys). exists (steps cfg seqs w).
    apply process_Ok_iff. split; [|reflexivity].
    apply can_steps_intro; [exact Hw|].
    intros k (Hne & [->|(s & Hs & ->)])%touched_iff; [auto|].
    rewrite Forall_forall in Hkeys. auto.
Qed.

Lemma touched_perm cfg seqs seqs' :
  Permutation seqs seqs' -> touched cfg seqs = touched cfg seqs'.
Proof. induction 1; simpl; [reflexivity | set_solver | set_solver | congruence]. Qed.

Lemma adds_perm cfg seqs seqs' k :
  Permutation seqs seqs' -> adds cfg seqs k = adds cfg seqs' k.
Proof. induction 1; simpl; [reflexivity | set_solver | set_solver | congruence]. Qed.

(** X5. The order of the records in a page does not matter: when no two
    records of the page with one hash have two sequences, storing the page
    in any other order ends in the same world. *)
Theorem process_permutation cfg seqs seqs' w w1 :
  Permutation seqs seqs' ->
  (forall s s', s ∈ seqs -> s' ∈ seqs -> Hash s = Hash s' ->
                Sequence s = Sequence s') ->
  process cfg seqs w = Ok tt w1 ->
  process cfg seqs' w = Ok tt w1.
Proof.
  intros Hperm Hsame [Hcan ->]%process_Ok_iff. apply process_Ok_iff. split.
  - apply can_steps_intro.
    + rewrite <- Hperm. apply can_steps_writable, Hcan.
    + intros k Hk. apply (can_steps_settable _ _ _ _ Hcan).
      rewrite (touched_perm _ _ _ Hperm). exact Hk.
  - apply World_eq.
    + apply map_eq. intros k. rewrite !redis_steps.
      rewrite (touched_perm _ _ _ Hperm), (adds_perm _ _ _ k Hperm). reflexivity.
    + apply map_eq. intros f. rewrite !fastas_steps.
      destruct (last_write cfg seqs f) as [d|] eqn:Hl,
               (last_write cfg seqs' f) as [d'|] eqn:Hl'; try reflexivity.
      * destruct (last_write_Some _ _ _ _ Hl) as (s & Hs & Hn & ->).
        destruct (last_write_Some _ _ _ _ Hl') as (s' & Hs' & Hn' & ->).
        rewrite <- Hperm in Hs'.
        assert (Hh : Hash s = Hash s').
        { apply (fasta_name_inj cfg); auto using Hash_is_hash. congruence. }
        rewrite (Hsame _ _ Hs Hs' Hh), Hh. reflexivity.
      * destruct (last_write_Some _ _ _ _ Hl) as (s & Hs & Hn & ->).
        rewrite Hperm in Hs. destruct (last_write_None _ _ _ _ Hl' Hs Hn).
      * destruct (last_write_Some _ _ _ _ Hl') as (s & Hs & Hn & ->).
        rewrite <- Hperm in Hs. destruct (last_write_None _ _ _ _ Hl Hs Hn).
    + rewrite !writable_steps. reflexivity.
Qed.

Lemma process_permutation_witness :
  process default_config [seq_u2; seq_u1] empty_world
  = Ok tt (steps default_config [seq_u1; seq_u2] empty_world).
Proof.
  apply (process_permutation default_config [seq_u1; seq_u2] [seq_u2; seq_u1]
           empty_world).
  - apply perm_swap.
  - intros s s' Hs Hs' _. set_unfold.
    destruct Hs as [Hs|[Hs|[]]], Hs' as [Hs'|[Hs'|[]]]; subst; reflexivity.
  - vm_compute. reflexivity.
Defined.

Lemma process_after cfg a rest w :
  can_steps cfg a w = true ->
  process cfg (a ++ rest) w = process cfg rest (steps cfg a w).
Proof.
  intros Hcan. rewrite process_app. unfold bind.
  rewrite (proj2 (process_Ok_iff cfg a w _) (conj Hcan eq_refl)). reflexivity.
Qed.

(** X6. The storing phase stops at the first record it cannot store, with
    the records before it stored and none after it.  Of the failing record
    nothing is there when its file cannot be written; its file alone when
    the key of the set of hashes does not hold a set; its file and its hash
    in the set of hashes, but not its identifier, when the key of its own
    set does not hold a set. *)
Theorem process_stops_at_first_failure cfg a r b w :
  can_steps cfg a w = true ->
  let wa := steps cfg a w in
  let name := fasta_name cfg (Hash r) in
  let files := <[name := fasta_file (Hash r) (Sequence r)]> (fastas wa) in
  let dk := redisDedupSetKey cfg in
  (writable w name = false ->
   exists msg, process cfg (a ++ r :: b) w = Fatal msg wa)
  /\ (writable w name = true -> settable (redis wa !! dk) = false ->
      exists msg, process cfg (a ++ r :: b) w
                  = Fatal msg (mkWorld (redis wa) files (writable w)))
  /\ (writable w name = true -> settable (redis wa !! dk) = true ->
      settable (redis wa !! seq_key cfg (Hash r)) = false ->
      exists msg, process cfg (a ++ r :: b) w
                  = Fatal msg (mkWorld (sadd dk (Hash r) (redis wa)) files
                                 (writable w))).
Proof.
  intros Hcan wa name files dk. rewrite (process_after _ _ _ _ Hcan). fold wa.
  assert (Hwr : writable wa = writable w) by apply writable_steps.
  simpl. unfold bind, process_one, bind, WriteFile. fold name. rewrite Hwr.
  splits.
  - intros ->. eexists. destruct wa; reflexivity.
  - intros -> Hdk. rewrite Cmd_SADD. simpl. fold dk. rewrite Hdk. simpl.
    eexists. reflexivity.
  - intros -> Hdk Hkey. rewrite Cmd_SADD. simpl. fold dk. rewrite Hdk. simpl.
    rewrite Cmd_SADD. simpl.
    assert (Hne : dk <> seq_key cfg (Hash r)) by (intros Heq; congruence).
    rewrite sadd_lookup, decide_False by exact Hne. rewrite Hkey. simpl.
    eexists. reflexivity.
Qed.

Lemma process_stops_at_first_failure_witness :
  let w := mkWorld {[ "sequenceHashSet" := Redis.VStr "x" ]} ∅ (fun _ => true) in
  let wa := steps default_config [] w in
  let name := fasta_name default_config (Hash seq_u1) in
  let files := <[name := fasta_file (Hash seq_u1) (Sequence seq_u1)]> (fastas wa) in
  let dk := redisDedupSetKey default_config in
  (writable w name = false ->
   exists msg, process default_config ([] ++ seq_u1 :: [seq_u2]) w = Fatal msg wa)
  /\ (writable w name = true -> settable (redis wa !! dk) = false ->
      exists msg, process default_config ([] ++ seq_u1 :: [seq_u2]) w
                  = Fatal msg (mkWorld (redis wa) files (writable w)))
  /\ (writable w name = true -> settable (redis wa !! dk) = true ->
      settable (redis wa !! seq_key default_config (Hash seq_u1)) = false ->
      exists msg, process default_config ([] ++ seq_u1 :: [seq_u2]) w
                  = Fatal msg (mkWorld (sadd dk (Hash seq_u1) (redis wa)) files
                                 (writable w))).
Proof.
  apply (process_stops_at_first_failure default_config [] seq_u1 [seq_u2]
           (mkWorld {[ "sequenceHashSet" := Redis.VStr "x" ]} ∅ (fun _ => true))).
  reflexivity.
Defined.

(** A string under the key of the set of hashes: the first file is written,
    and nothing else. *)
Example wrongtype_leaves_a_file :
  process default_config [seq_u1; seq_u2]
    (mkWorld {[ "sequenceHashSet" := Redis.VStr "x" ]} ∅ (fun _ => true))
  = Fatal ("couldn't add hash to dedup set" +:+ Redis.wrongtype)
      (mkWorld {[ "sequenceHashSet" := Redis.VStr "x" ]}
         {[ fasta_name default_config (Hash seq_u1)
            := fasta_file (Hash seq_u1) "acgt" ]}
         (fun _ => true)).
Proof. vm_compute. reflexivity. Qed.

Lemma adds_seq_key cfg seqs h u :
  keys_apart cfg = true ->
  u ∈ adds cfg seqs (seq_key cfg h)
  <-> exists s, s ∈ seqs /\ Hash s = h /\ URI s = u.
Proof.
  intros Hk. pose proof (keys_apart_ne cfg h Hk) as Hne.
  induction seqs as [|seq seqs IH]; simpl; [set_solver|].
  unfold adds_one. rewrite decide_False by exact Hne.
  rewrite !elem_of_union, IH. clear IH.
  destruct (decide (seq_key cfg (Hash seq) = seq_key cfg h)) as [Heq|Heq].
  - apply seq_key_inj in Heq. rewrite elem_of_singleton. split.
    + intros [[H|H]|(s & Hs & Hrest)]; [set_solver| |].
      * exists seq. split; [set_solver | auto].
      * exists s. split; [set_solver | auto].
    + intros (s & [->|Hs]%elem_of_cons & Hh & Hu); [auto|].
      right. eauto.
  - split.
    + intros [[H|H]|(s & Hs & Hrest)]; [set_solver | set_solver |].
      exists s. split; [set_solver | auto].
    + intros (s & [->|Hs]%elem_of_cons & Hh & Hu); [congruence|].
      right. eauto.
Qed.

Lemma adds_dedup cfg seqs x :
  keys_apart cfg = true ->
  x ∈ adds cfg seqs (redisDedupSetKey cfg) <-> exists s, s ∈ seqs /\ Hash s = x.
Proof.
  intros Hk. induction seqs as [|seq seqs IH]; simpl; [set_solver|].
  unfold adds_one.
  rewrite (decide_True (P := redisDedupSetKey cfg = redisDedupSetKey cfg))
    by reflexivity.
  rewrite decide_False
    by (intros Heq; exact (keys_apart_ne cfg (Hash seq) Hk (eq_sym Heq))).
  rewrite !elem_of_union, IH, elem_of_singleton. clear IH. split.
  - intros [[->|H]|(s & Hs & Hrest)]; [|set_solver|].
    + exists seq. split; [set_solver | auto].
    + exists s. split; [set_solver | auto].
  - intros (s & [->|Hs]%elem_of_cons & Hh); [auto|]. right. eauto.
Qed.

(** X7. What a storing phase that ends well adds, and nothing more: to the
    identifiers of a hash those of the records of the page with that hash;
    to the set of hashes the hashes of the page; every other key of redis
    and every file that is not the file of a record of the page are as they
    were. *)
Theorem process_adds_exactly cfg seqs w w' :
  keys_apart cfg = true ->
  process cfg seqs w = Ok tt w' ->
  (forall h u,
      u ∈ identifiersFor cfg (redis w') h
      <-> u ∈ identifiersFor cfg (redis w) h
          \/ exists s, s ∈ seqs /\ Hash s = h /\ URI s = u)
  /\ (forall x,
        x ∈ seen cfg (redis w')
        <-> x ∈ seen cfg (redis w) \/ exists s, s ∈ seqs /\ Hash s = x)
  /\ (forall k,
        k <> redisDedupSetKey cfg ->
        (forall s, s ∈ seqs -> k <> seq_key cfg (Hash s)) ->
        redis w' !! k = redis w !! k)
  /\ (forall f,
        (forall s, s ∈ seqs -> fasta_name cfg (Hash s) <> f) ->
        fastas w' !! f = fastas w !! f)
  /\ writable w' = writable w.
Proof.
  intros Hk [_ ->]%process_Ok_iff. splits.
  - intros h u. unfold identifiersFor. rewrite redis_steps.
    rewrite <- (adds_seq_key cfg seqs h u Hk). case_decide as Hin; simpl.
    + set_solver.
    + rewrite (adds_untouched _ _ _ Hin). set_solver.
  - intros x. unfold seen. rewrite redis_steps.
    rewrite <- (adds_dedup cfg seqs x Hk). case_decide as Hin; simpl.
    + set_solver.
    + rewrite (adds_untouched _ _ _ Hin). set_solver.
  - intros k Hdk Hkeys. rewrite redis_steps, decide_False; [reflexivity|].
    intros (_ & [->|(s & Hs & ->)])%touched_iff; [congruence|].
    exact (Hkeys s Hs eq_refl).
  - intros f Hf. rewrite fastas_steps.
    destruct (last_write cfg seqs f) as [d|] eqn:Hl; [|reflexivity].
    destruct (last_write_Some _ _ _ _ Hl) as (s & Hs & Hn & _).
    destruct (Hf s Hs Hn).
  - apply writable_steps.
Qed.

Lemma process_adds_exactly_witness :
  let w' := steps default_config [seq_u1; seq_u2] empty_world in
  (forall h u,
      u ∈ identifiersFor default_config (redis w') h
      <-> u ∈ identifiersFor default_config (redis empty_world) h
          \/ exists s, s ∈ [seq_u1; seq_u2] /\ Hash s = h /\ URI s = u)
  /\ (forall x,
        x ∈ seen default_config (redis w')
        <-> x ∈ seen default_config (redis empty_world)
            \/ exists s, s ∈ [seq_u1; seq_u2] /\ Hash s = x)
  /\ (forall k,
        k <> redisDedupSetKey default_config ->
        (forall s, s ∈ [seq_u1; seq_u2] -> k <> seq_key default_config (Hash s)) ->
        redis w' !! k = redis empty_world !! k)
  /\ (forall f,
        (forall s, s ∈ [seq_u1; seq_u2] ->
                   fasta_name default_config (Hash s) <> f) ->
        fastas w' !! f = fastas empty_world !! f)
  /\ writable w' = writable empty_world.
Proof.
  apply (process_adds_exactly default_config [seq_u1; seq_u2] empty_world).
  - reflexivity.
  - vm_compute. reflexivity.
Defined.

(** ** More of [main]: restarts and edge pages *)

Lemma string2ll_canonical s c :
  Redis.string2ll s = Some c ->
  Strconv.ParseInt s = Some c /\ Strconv.FormatInt c = s.
Proof.
  unfold Redis.string2ll. destruct (Strconv.ParseInt s) as [z|]; simpl;
    [|discriminate].
  destruct (String.eqb_spec (Strconv.FormatInt z) s); [|discriminate].
  intros [= <-]. auto.
Qed.

Lemma startup_at_cursor cfg w c : cursor cfg w = Some c -> startup cfg w = Ok c w.
Proof.
  intros (s & Hk & Hv)%cursor_inv. apply string2ll_canonical in Hv as [Hp _].
  unfold startup, bind, Cmd. simpl. rewrite Hk. simpl. rewrite Hp.
  destruct w; reflexivity.
Qed.

Lemma startup_cases cfg w :
  match startup cfg w with
  | Ok n w' => startup cfg w' = Ok n w'
  | Fatal _ w' => w' = w
  end.
Proof.
  unfold startup, bind, Cmd. simpl. destruct w as [d f wr]. simpl.
  destruct (d !! redisOffsetKey cfg) as [[s|ms|]|] eqn:Hk; simpl; try reflexivity.
  - destruct (Strconv.ParseInt s) as [n|] eqn:Hp; simpl; [|reflexivity].
    rewrite Hk. simpl. rewrite Hp. reflexivity.
  - rewrite lookup_insert_eq. reflexivity.
Qed.

(** X8. Starting again changes nothing: after a start that ended well a
    second start reads the same offset and writes nothing; a start that
    ends in a fatal error has written nothing. *)
Theorem startup_again cfg (w : World) :
  match startup cfg w with
  | Ok n w' =>
      startup cfg w' = Ok n w'
      /\ fastas w' = fastas w
      /\ (forall k, k <> redisOffsetKey cfg -> redis w' !! k = redis w !! k)
  | Fatal _ w' => w' = w
  end.
Proof.
  pose proof (startup_cases cfg w) as Hs.
  pose proof (always_startup cfg w) as Hkept.
  destruct (startup cfg w) as [n w'|msg w'] eqn:Hst; [|exact Hs].
  split; [exact Hs|]. clear Hs Hkept.
  unfold startup, bind, Cmd in Hst. simpl in Hst. destruct w as [d f wr].
  simpl in *.
  destruct (d !! redisOffsetKey cfg) as [[s|ms|]|]; simpl in Hst;
    try discriminate Hst.
  - destruct (Strconv.ParseInt s); simpl in Hst; [|discriminate Hst].
    injection Hst as <- <-. auto.
  - injection Hst as <- <-. simpl. split; [reflexivity|].
    intros k Hne. apply lookup_insert_ne. congruence.
Qed.

(** X9. A page without records leaves the world exactly as it is: no file,
    no set, the cursor and the offset of the loop where they were; the loop
    then sleeps four hours (two seconds if the result limit is not
    positive). *)
Theorem cycle_empty_page cfg (up : Upstream) offset c w page :
  cursor cfg w = Some c ->
  up (resultLimit cfg) offset = Some (Some page) ->
  Results page = [] ->
  cycle cfg up offset w
  = Ok (c, if 0 <? resultLimit cfg then Hour * 4 else Second * 2) w.
Proof.
  intros Hc Hup Hres. unfold cycle, bind, fetch. rewrite Hup. simpl.
  rewrite Hres. simpl. rewrite (Cmd_INCRBY _ _ _ _ Hc).
  destruct (cursor_inv _ _ _ Hc) as (s & Hk & Hv).
  pose proof (string2ll_in_int64 _ _ Hv) as Hin.
  apply string2ll_canonical in Hv as [_ Hf].
  change (len []) with 0. rewrite Z.add_0_r, Hin. simpl.
  rewrite Hf, (insert_id _ _ _ Hk). destruct w. simpl.
  destruct (0 <? resultLimit cfg); reflexivity.
Qed.

Lemma cycle_empty_page_witness :
  cycle default_config scenario_upstream 5
    (mkWorld {[ "sequenceoffset" := Redis.VStr "5" ]} ∅ (fun _ => true))
  = Ok (5, if 0 <? resultLimit default_config then Hour * 4 else Second * 2)
      (mkWorld {[ "sequenceoffset" := Redis.VStr "5" ]} ∅ (fun _ => true)).
Proof.
  apply (cycle_empty_page default_config scenario_upstream 5 5
           (mkWorld {[ "sequenceoffset" := Redis.VStr "5" ]} ∅ (fun _ => true))
           (mkSparqlResult [] [])); reflexivity.
Defined.

(** X10. After any run of the loop from a world that holds the cursor,
    ended well or by a fatal error, the next start of the program reads the
    cursor the run left and writes nothing; after a run that ended well this
    is the offset the loop had reached. *)
Theorem restart_resumes_at_cursor cfg (ups : list Upstream) c w :
  cursor cfg w = Some c ->
  exists c',
    cursor cfg (final (main_loop cfg ups c w)) = Some c'
    /\ c <= c'
    /\ startup cfg (final (main_loop cfg ups c w))
       = Ok c' (final (main_loop cfg ups c w))
    /\ (forall last sleeps w',
          main_loop cfg ups c w = Ok (last, sleeps) w' -> c' = last).
Proof.
  intros Hc. pose proof (main_loop_cases cfg ups c w Hc) as Hrun.
  destruct (main_loop cfg ups c w) as [[last sleeps] w'|msg w']; simpl.
  - destruct Hrun as (_ & _ & Hcur & Hle & _). exists last.
    splits; auto using startup_at_cursor. intros ? ? ? [= <- _ _]. reflexivity.
  - destruct Hrun as (c' & Hcur & Hle & _). exists c'.
    splits; auto using startup_at_cursor. discriminate.
Qed.

Lemma restart_resumes_at_cursor_witness :
  exists c',
    cursor default_config
      (final (main_loop default_config [scenario_upstream] 0 started_world))
    = Some c'
    /\ 0 <= c'
    /\ startup default_config
         (final (main_loop default_config [scenario_upstream] 0 started_world))
       = Ok c' (final (main_loop default_config [scenario_upstream] 0 started_world))
    /\ (forall last sleeps w',
          main_loop default_config [scenario_upstream] 0 started_world
          = Ok (last, sleeps) w' -> c' = last).
Proof.
  apply (restart_resumes_at_cursor default_config [scenario_upstream] 0
           started_world).
  reflexivity.
Defined.

Lemma cycle_Ok_cursor cfg up offset w offset' slept w' :
  cycle cfg up offset w = Ok (offset', slept) w' -> cursor cfg w' = Some offset'.
Proof.
  intros Hcyc. unfold cycle, bind, fetch in Hcyc.
  destruct (up (resultLimit cfg) offset) as [[r|]|]; simpl in Hcyc;
    try discriminate Hcyc.
  destruct (parse_results (Results r) w) as [seqs w1|]; [|discriminate Hcyc].
  destruct (process cfg seqs w1) as [[] wp|]; [|discriminate Hcyc].
  destruct wp as [d f wr]. unfold Cmd in Hcyc. simpl in Hcyc.
  assert (Hgoal : forall v,
    Strconv.in_int64 (v + len seqs) = true ->
    cursor cfg (mkWorld (<[redisOffsetKey cfg
                           := Redis.VStr (Strconv.FormatInt (v + len seqs))]> d) f wr)
    = Some (v + len seqs)) by (intros v Hv; apply cursor_after_INCRBY, Hv).
  destruct (Strconv.in_int64 (len seqs)); simpl in Hcyc; [|discriminate Hcyc].
  destruct (d !! redisOffsetKey cfg) as [[s|ms|]|]; simpl in Hcyc;
    try discriminate Hcyc.
  - destruct (Redis.string2ll s) as [v|]; simpl in Hcyc; [|discriminate Hcyc].
    destruct (Strconv.in_int64 (v + len seqs)) eqn:Hv; simpl in Hcyc;
      [|discriminate Hcyc].
    destruct (_ <? _); injection Hcyc as <- _ <-; apply Hgoal, Hv.
  - destruct (Strconv.in_int64 (0 + len seqs)) eqn:Hv; simpl in Hcyc;
      [|discriminate Hcyc].
    destruct (_ <? _); injection Hcyc as <- _ <-; apply (Hgoal 0), Hv.
Qed.

Lemma main_loop_Ok_cursor cfg ups offset w last sleeps w' :
  ups <> [] ->
  main_loop cfg ups offset w = Ok (last, sleeps) w' ->
  cursor cfg w' = Some last.
Proof.
  revert offset w sleeps. induction ups as [|up ups IH]; intros offset w sleeps Hne;
    [congruence|].
  simpl. unfold bind.
  destruct (cycle cfg up offset w) as [[offset' slept] w1|] eqn:Hcyc; [|discriminate].
  apply cycle_Ok_cursor in Hcyc.
  destruct (main_loop cfg ups offset' w1) as [[l s] w2|] eqn:Hrest; [|discriminate].
  intros [= <- _ <-]. destruct ups as [|up' ups'].
  - simpl in Hrest. injection Hrest as <- _ <-. exact Hcyc.
  - eapply IH; [|exact Hrest]. discriminate.
Qed.

Lemma main_loop_app cfg ups1 ups2 offset w :
  main_loop cfg (ups1 ++ ups2) offset w
  = match main_loop cfg ups1 offset w with
    | Ok (l1, s1) w1 =>
        match main_loop cfg ups2 l1 w1 with
        | Ok (l2, s2) w2 => Ok (l2, s1 ++ s2) w2
        | Fatal msg w2 => Fatal msg w2
        end
    | Fatal msg w1 => Fatal msg w1
    end.
Proof.
  revert offset w. induction ups1 as [|up ups1 IH]; intros offset w; simpl.
  - unfold ret. destruct (main_loop cfg ups2 offset w) as [[l2 s2] w2|];
      reflexivity.
  - unfold bind. destruct (cycle cfg up offset w) as [[offset' slept] w1|];
      [|reflexivity].
    rewrite IH. destruct (main_loop cfg ups1 offset' w1) as [[l1 s1] w2|];
      [|reflexivity].
    unfold ret.
    destruct (main_loop cfg ups2 l1 w2) as [[l2 s2] w3|]; reflexivity.
Qed.

(** X11. Stopping the program between two turns of the loop and starting it
    again is of no effect: [main] on the answers of two runs in a row does
    what [main] does on the first, then [main] again on the second, the
    times slept put together. *)
Theorem main_restart_between_turns cfg (ups1 ups2 : list Upstream) w l1 s1 w1 :
  main cfg ups1 w = Ok (l1, s1) w1 ->
  main cfg (ups1 ++ ups2) w
  = match main cfg ups2 w1 with
    | Ok (l2, s2) w2 => Ok (l2, s1 ++ s2) w2
    | Fatal msg w2 => Fatal msg w2
    end.
Proof.
  unfold main, bind. intros H1. pose proof (startup_cases cfg w) as Hidem.
  destruct (startup cfg w) as [n w0|] eqn:Hst; [|discriminate H1].
  rewrite main_loop_app, H1.
  assert (Hre : startup cfg w1 = Ok l1 w1).
  { destruct ups1 as [|up ups1].
    - simpl in H1. unfold ret in H1. injection H1 as <- _ <-. exact Hidem.
    - apply startup_at_cursor.
      eapply main_loop_Ok_cursor; [|exact H1]. discriminate. }
  rewrite Hre. reflexivity.
Qed.

Lemma main_restart_between_turns_witness :
  main default_config ([scenario_upstream] ++ [scenario_upstream]) empty_world
  = match main default_config [scenario_upstream]
            (final (main default_config [scenario_upstream] empty_world)) with
    | Ok (l2, s2) w2 => Ok (l2, [Hour * 4] ++ s2) w2
    | Fatal msg w2 => Fatal msg w2
    end.
Proof.
  apply (main_restart_between_turns default_config [scenario_upstream]
           [scenario_upstream] empty_world 2).
  vm_compute. reflexivity.
Defined.

(** X12. An offset that redis holds in a form strconv reads but the server
    does not (a sign [+], leading zeros): the program starts at its value,
    but INCRBY refuses it, so every turn stores its page and then ends in a
    fatal error, the offset untouched. *)
Theorem offset_not_canonical cfg (up : Upstream) offset w s n page seqs wp :
  redis w !! redisOffsetKey cfg = Some (Redis.VStr s) ->
  Strconv.ParseInt s = Some n ->
  Redis.string2ll s = None ->
  up (resultLimit cfg) offset = Some (Some page) ->
  parse (Some page) w = Ok seqs w ->
  process cfg seqs w = Ok tt wp ->
  startup cfg w = Ok n w
  /\ cycle cfg up offset w
     = Fatal ("couldn't update offset with new records: " +:+ Redis.notint) wp
  /\ redis wp !! redisOffsetKey cfg = Some (Redis.VStr s).
Proof.
  intros Hk Hp Hs Hup Hparse Hproc.
  assert (Hkp : redis wp !! redisOffsetKey cfg = Some (Redis.VStr s)).
  { pose proof (always_process cfg seqs w) as [_ Hstr]. rewrite Hproc in Hstr.
    apply Hstr, Hk. }
  splits; [| |exact Hkp].
  - unfold startup, bind, Cmd. simpl. rewrite Hk. simpl. rewrite Hp.
    destruct w; reflexivity.
  - unfold cycle, bind, fetch. rewrite Hup. simpl. simpl in Hparse.
    rewrite Hparse, Hproc. unfold Cmd. simpl. rewrite Hkp, Hs.
    destruct (Strconv.in_int64 (len seqs)); simpl; destruct wp; reflexivity.
Qed.

Lemma offset_not_canonical_witness :
  let w := mkWorld {[ "sequenceoffset" := Redis.VStr "007" ]} ∅ (fun _ => true) in
  startup default_config w = Ok 7 w
  /\ cycle default_config (fun _ _ => Some (Some scenario_page)) 7 w
     = Fatal ("couldn't update offset with new records: " +:+ Redis.notint)
         (steps default_config [seq_u1; seq_u2] w)
  /\ redis (steps default_config [seq_u1; seq_u2] w) !! redisOffsetKey default_config
     = Some (Redis.VStr "007").
Proof.
  apply (offset_not_canonical default_config (fun _ _ => Some (Some scenario_page)) 7
           (mkWorld {[ "sequenceoffset" := Redis.VStr "007" ]} ∅ (fun _ => true))
           "007" 7 scenario_page [seq_u1; seq_u2]); vm_compute; reflexivity.
Defined.

(** ** Hashes, file names and keys *)

(** X13. Every content hash has a file name and a key of its own: the file
    of a hash is the hash with [.fasta] behind it, after a prefix that the
    fasta directory decides, and two hashes never share a file or a key. *)
Theorem one_file_one_key_per_hash cfg :
  exists dir,
    forall h, is_hash h = true ->
      fasta_name cfg h = dir +:+ h +:+ ".fasta"
      /\ (forall h', is_hash h' = true -> h <> h' ->
            fasta_name cfg h <> fasta_name cfg h'
            /\ seq_key cfg h <> seq_key cfg h').
Proof.
  destruct (Join_name (fastaDir cfg)) as [dir Hdir]. exists dir.
  intros h Hh. split.
  - destruct (hash_name_ok _ Hh) as [Hs Hl]. apply (Hdir _ Hs Hl).
  - intros h' Hh' Hne. split; intros Heq; apply Hne.
    + apply (fasta_name_inj cfg); assumption.
    + apply (seq_key_inj cfg), Heq.
Qed.

Lemma append_inj_r (s s' t : string) : s +:+ t = s' +:+ t -> s = s'.
Proof.
  intros Heq. apply (append_inj_same_length s s' t t); [|exact Heq].
  apply (f_equal String.length) in Heq. rewrite !length_append in Heq. lia.
Qed.

(** X14. A fasta file tells its record: two files with the same bytes were
    written for the same hash and the same sequence. *)
Theorem fasta_file_inj h h' (s s' : string) :
  is_hash h = true -> is_hash h' = true ->
  fasta_file h s = fasta_file h' s' ->
  h = h' /\ s = s'.
Proof.
  unfold fasta_file, is_hash.
  intros [Hl _]%andb_prop [Hl' _]%andb_prop Heq.
  apply Nat.eqb_eq in Hl, Hl'.
  apply (inj (String.append ">")) in Heq.
  assert (Hh : h = h')
    by (apply (append_inj_same_length _ _ _ _ (eq_trans Hl (eq_sym Hl')) Heq)).
  subst h'. split; [reflexivity|].
  apply (inj (String.append h)) in Heq. apply (inj (String.append newline)) in Heq.
  apply (append_inj_r _ _ _ Heq).
Qed.

Lemma fasta_file_inj_witness :
  Hash seq_u1 = Hash seq_u2 /\ Sequence seq_u1 = Sequence seq_u2.
Proof.
  apply (fasta_file_inj (Hash seq_u1) (Hash seq_u2) (Sequence seq_u1)
           (Sequence seq_u2)); vm_compute; reflexivity.
Defined.

(** ** More of synbioblast.go *)

Lemma flush_answers cfg d hits :
  flush (List.map (lookup_of cfg) hits) d = (List.map (answer cfg d) hits, d).
Proof.
  induction hits as [|h hits IH]; [reflexivity|].
  cbn [List.map]. rewrite flush_cons. unfold answer.
  pose proof (exec_read (lookup_of cfg h) d eq_refl) as Hd.
  destruct (Redis.exec (lookup_of cfg h) d) as [r d']. simpl in Hd. subst d'.
  rewrite IH. reflexivity.
Qed.

Lemma answer_settable cfg d h :
  settable (d !! seq_key cfg (SeqHash h)) = true -> answer cfg d h = reply_of cfg d h.
Proof. intros H. unfold answer. rewrite (exec_SMEMBERS _ _ _ H). reflexivity. Qed.

Lemma answer_wrongtype cfg d h :
  settable (d !! seq_key cfg (SeqHash h)) = false ->
  answer cfg d h = Redis.RErr Redis.wrongtype.
Proof.
  unfold answer, lookup_of. simpl.
  destruct (d !! seq_key cfg (SeqHash h)) as [[s|ms|]|]; simpl;
    try discriminate; reflexivity.
Qed.

(** Taking the replies that are in the pipeline already. *)
Lemma take_replies_pop d p r rest hits h :
  take_replies (mkClient d p (r :: rest)) (h :: hits)
  = match Redis.List r with
    | inl err => (mkClient d p rest, h :: hits, Some err)
    | inr uris =>
        let '(c2, done, e) := take_replies (mkClient d p rest) hits in
        (c2, with_URIs h uris :: done, e)
    end.
Proof. reflexivity. Qed.

Lemma take_replies_first_error cfg d a h b :
  Forall (fun x => settable (d !! seq_key cfg (SeqHash x)) = true) a ->
  settable (d !! seq_key cfg (SeqHash h)) = false ->
  take_replies (mkClient d [] (List.map (answer cfg d) (a ++ h :: b))) (a ++ h :: b)
  = (mkClient d [] (List.map (answer cfg d) b),
     List.map (reconciled cfg d) a ++ h :: b, Some Redis.wrongtype).
Proof.
  intros Ha Hh. induction Ha as [|x a Hx _ IH].
  - cbn [app List.map]. rewrite take_replies_pop, (answer_wrongtype _ _ _ Hh).
    reflexivity.
  - cbn [app List.map]. rewrite take_replies_pop, (answer_settable _ _ _ Hx).
    cbn [reply_of Redis.List]. rewrite IH. reflexivity.
Qed.

(** X15. The first key of a hit that holds something else than a set ends
    the lookup with the error of redis: the hits before it have their URIs,
    that hit and those after it are as they were, [parseResults] returns no
    results, and the replies to the hits after it stay in the pipeline. *)
Theorem getURIs_first_error cfg (c : Client) (r : BlastResults) a h b :
  idle c ->
  BlastHits r = a ++ h :: b ->
  Forall (fun x => settable (db c !! seq_key cfg (SeqHash x)) = true) a ->
  settable (db c !! seq_key cfg (SeqHash h)) = false ->
  getURIs cfg c r
  = (mkClient (db c) [] (List.map (answer cfg (db c)) b),
     with_hits r (List.map (reconciled cfg (db c)) a ++ h :: b),
     Some Redis.wrongtype)
  /\ parseResults cfg c (Some r)
     = (mkClient (db c) [] (List.map (answer cfg (db c)) b), inl Redis.wrongtype).
Proof.
  intros [Hp Hc] Hhits Ha Hh. destruct c as [d p q]. simpl in *. subst p q.
  assert (Hget : getURIs cfg (mkClient d [] []) r
                 = (mkClient d [] (List.map (answer cfg d) b),
                    with_hits r (List.map (reconciled cfg d) a ++ h :: b),
                    Some Redis.wrongtype)).
  { unfold getURIs. rewrite append_lookups_spec, Hhits. cbn [db pending completed app].
    pose proof (take_replies_first_error cfg d a h b Ha Hh) as Htake.
    destruct (a ++ h :: b) as [|x hits] eqn:Hx; [destruct a; discriminate Hx|].
    cbn [List.map take_replies]. unfold PipeResp at 1. cbn [completed pending db].
    rewrite <- (map_cons (lookup_of cfg)), flush_answers. cbn [List.map].
    cbn [List.map] in Htake. rewrite take_replies_pop in Htake.
    destruct (Redis.List (answer cfg d x)) as [err|uris].
    - injection Htake as <- <- <-. reflexivity.
    - destruct (take_replies _ hits) as [[c2 rest] e].
      injection Htake as <- <- <-. reflexivity. }
  split; [exact Hget|]. unfold parseResults. rewrite Hget. reflexivity.
Qed.

Lemma getURIs_first_error_witness :
  getURIs default_config broken_client
    (with_hits scenario_results ([hit_acgt] ++ hit_unknown :: [hit_acgt]))
  = (mkClient (db broken_client) []
       (List.map (answer default_config (db broken_client)) [hit_acgt]),
     with_hits (with_hits scenario_results ([hit_acgt] ++ hit_unknown :: [hit_acgt]))
       (List.map (reconciled default_config (db broken_client)) [hit_acgt]
          ++ hit_unknown :: [hit_acgt]),
     Some Redis.wrongtype)
  /\ parseResults default_config broken_client
       (Some (with_hits scenario_results ([hit_acgt] ++ hit_unknown :: [hit_acgt])))
     = (mkClient (db broken_client) []
          (List.map (answer default_config (db broken_client)) [hit_acgt]),
        inl Redis.wrongtype).
Proof.
  apply (getURIs_first_error default_config broken_client
           (with_hits scenario_results ([hit_acgt] ++ hit_unknown :: [hit_acgt]))
           [hit_acgt] hit_unknown [hit_acgt]).
  - split; reflexivity.
  - reflexivity.
  - repeat constructor.
  - reflexivity.
Defined.

Lemma take_replies_stale d p (stale : list (list string)) rest hits :
  length stale = length hits ->
  take_replies (mkClient d p (List.map Redis.RArray stale ++ rest)) hits
  = (mkClient d p rest, zip_with with_URIs hits stale, None).
Proof.
  revert stale. induction hits as [|h hits IH]; intros [|l stale] Hlen;
    try discriminate Hlen; [reflexivity|].
  cbn [List.map app]. rewrite take_replies_pop. cbn [Redis.List].
  rewrite IH by (simpl in Hlen; lia). reflexivity.
Qed.

(** X16. Replies that are in the pipeline when the lookup starts are taken
    for the replies to its hits: with as many of them as there are hits,
    each a list, the hits get those lists as their URIs, redis is not asked,
    and the lookups of the hits stay behind, not sent. *)
Theorem getURIs_takes_stale_replies cfg (c : Client) (r : BlastResults)
    (stale : list (list string)) rest :
  completed c = List.map Redis.RArray stale ++ rest ->
  length stale = length (BlastHits r) ->
  getURIs cfg c r
  = (mkClient (db c) (pending c ++ List.map (lookup_of cfg) (BlastHits r)) rest,
     with_hits r (zip_with with_URIs (BlastHits r) stale), None).
Proof.
  intros Hc Hlen. unfold getURIs. rewrite append_lookups_spec, Hc.
  rewrite (take_replies_stale _ _ _ _ _ Hlen). reflexivity.
Qed.

Lemma getURIs_takes_stale_replies_witness :
  getURIs default_config stale_client (with_hits scenario_results [hit_unknown])
  = (mkClient (db stale_client)
       (pending stale_client
        ++ List.map (lookup_of default_config)
             (BlastHits (with_hits scenario_results [hit_unknown]))) [],
     with_hits (with_hits scenario_results [hit_unknown])
       (zip_with with_URIs (BlastHits (with_hits scenario_results [hit_unknown]))
          [["stale"]]),
     None).
Proof.
  apply (getURIs_takes_stale_replies default_config stale_client
           (with_hits scenario_results [hit_unknown]) [["stale"]] []);
    reflexivity.
Defined.

Lemma reconciled_idem cfg d h :
  reconciled cfg d (reconciled cfg d h) = reconciled cfg d h.
Proof. reflexivity. Qed.

(** X17. Looking hits up again gives the same: the URIs that a hit comes
    with are replaced, not added to, so the results of a lookup that ended
    well are a fixed point of the lookup, and the client is as it was. *)
Theorem getURIs_again cfg (c : Client) (r : BlastResults) c' r' :
  idle c ->
  Forall (fun h => settable (db c !! seq_key cfg (SeqHash h)) = true) (BlastHits r) ->
  getURIs cfg c r = (c', r', None) ->
  c' = c
  /\ getURIs cfg c r' = (c, r', None)
  /\ (forall uris,
        getURIs cfg c
          (with_hits r (List.map (fun h => with_URIs h (uris h)) (BlastHits r)))
        = (c, r', None)).
Proof.
  intros Hidle Hset Hget. rewrite (getURIs_idle _ _ _ Hidle Hset) in Hget.
  injection Hget as <- <-. split; [reflexivity|]. split.
  - rewrite getURIs_idle; [|exact Hidle|].
    + simpl. rewrite List.map_map. reflexivity.
    + simpl. apply Forall_map. exact Hset.
  - intros uris. rewrite getURIs_idle; [|exact Hidle|].
    + simpl. rewrite List.map_map. reflexivity.
    + simpl. apply Forall_map. exact Hset.
Qed.

Lemma getURIs_again_witness :
  scenario_client = scenario_client
  /\ getURIs default_config scenario_client
       (with_hits scenario_results
          (List.map (reconciled default_config (db scenario_client))
             (BlastHits scenario_results)))
     = (scenario_client,
        with_hits scenario_results
          (List.map (reconciled default_config (db scenario_client))
             (BlastHits scenario_results)), None)
  /\ (forall uris,
        getURIs default_config scenario_client
          (with_hits scenario_results
             (List.map (fun h => with_URIs h (uris h)) (BlastHits scenario_results)))
        = (scenario_client,
           with_hits scenario_results
             (List.map (reconciled default_config (db scenario_client))
                (BlastHits scenario_results)), None)).
Proof.
  apply (getURIs_again default_config scenario_client scenario_results).
  - split; reflexivity.
  - repeat constructor.
  - apply getURIs_idle; [split; reflexivity | repeat constructor].
Defined.

(** X18. A query the tool answers: with an idle pipeline and the keys of its
    hits absent or sets, [Blast] returns no error and leaves the client as it
    was; the results carry the query, the time the tool took, the hits of
    the tool in their order, each with the URIs of its hash, and a number of
    results that is the number of those hits. *)
Theorem Blast_reconciles cfg (tool : Blastn) (c : Client) seq out r0 elapsed :
  idle c ->
  tool (blastdbName cfg) (blastdbDir cfg) seq = Ran out (Some r0) None elapsed ->
  Forall (fun h => settable (db c !! seq_key cfg (SeqHash h)) = true) (BlastHits r0) ->
  exists res,
    Blast cfg tool c seq = (c, Some res, None)
    /\ Query res = seq
    /\ Duration res = elapsed
    /\ BlastHits res = List.map (reconciled cfg (db c)) (BlastHits r0)
    /\ NumResults res = len (BlastHits r0)
    /\ Version res = Version r0 /\ Reference res = Reference r0
    /\ DBNum res = DBNum r0.
Proof.
  intros Hidle Htool Hset. unfold Blast, parseResults. rewrite Htool.
  rewrite (getURIs_idle _ _ _ Hidle Hset). eexists. split; [reflexivity|].
  simpl. splits; try reflexivity. unfold len. rewrite length_map. reflexivity.
Qed.

Lemma Blast_reconciles_witness :
  exists res,
    Blast default_config scenario_blastn scenario_client "ACGT"
    = (scenario_client, Some res, None)
    /\ Query res = "ACGT"
    /\ Duration res = 3000000
    /\ BlastHits res
       = List.map (reconciled default_config (db scenario_client))
           (BlastHits scenario_results)
    /\ NumResults res = len (BlastHits scenario_results)
    /\ Version res = Version scenario_results
    /\ Reference res = Reference scenario_results
    /\ DBNum res = DBNum scenario_results.
Proof.
  apply (Blast_reconciles default_config scenario_blastn scenario_client "ACGT"
           "<BlastOutput/>" scenario_results 3000000).
  - split; reflexivity.
  - reflexivity.
  - repeat constructor.
Defined.

Lemma parseResults_reads cfg c xml :
  forallb is_read (pending c) = true ->
  db (fst (parseResults cfg c xml)) = db c.
Proof.
  intros Hp. unfold parseResults. destruct xml as [r|]; [|reflexivity].
  pose proof (getURIs_reads cfg c r Hp) as Hd.
  destruct (getURIs cfg c r) as [[c' r'] [e|]]; exact Hd.
Qed.

(** X19. [Blast] never writes to redis, whatever the tool and redis answer.
    When the tool cannot be run or ends with an error the client is not even
    used, and the error is returned (with the output of the tool as the
    error text of the results, and no hit, when it did run).  Results that
    come without error carry the query and count their hits. *)
Theorem Blast_never_writes cfg (tool : Blastn) (c : Client) seq :
  forallb is_read (pending c) = true ->
  db (fst (fst (Blast cfg tool c seq))) = db c
  /\ (forall e, tool (blastdbName cfg) (blastdbDir cfg) seq = NoPipe e ->
        Blast cfg tool c seq = (c, None, Some e))
  /\ (forall out xml e t,
        tool (blastdbName cfg) (blastdbDir cfg) seq = Ran out xml (Some e) t ->
        exists res,
          Blast cfg tool c seq = (c, Some res, Some e)
          /\ Error res = out /\ Query res = seq /\ BlastHits res = []
          /\ NumResults res = 0)
  /\ (forall c' res,
        Blast cfg tool c seq = (c', Some res, None) ->
        Query res = seq /\ NumResults res = len (BlastHits res))
  /\ (forall c', Blast cfg tool c seq <> (c', None, None)).
Proof.
  intros Hp. unfold Blast.
  destruct (tool (blastdbName cfg) (blastdbDir cfg) seq) as [e|out xml [e|] t]
    eqn:Htool.
  - splits; try discriminate; try reflexivity.
    intros e' [= <-]. reflexivity.
  - splits; try discriminate; try reflexivity.
    intros out' xml' e' t' [= <- _ <- _]. eexists. split; [reflexivity|].
    simpl. auto.
  - pose proof (parseResults_reads cfg c xml Hp) as Hd.
    destruct (parseResults cfg c xml) as [c1 [err|results]]; simpl in Hd;
      splits; try discriminate; try exact Hd.
    intros c' res [= _ <-]. simpl. auto.
Qed.

Lemma Blast_never_writes_witness :
  db (fst (fst (Blast default_config failing_blastn scenario_client "ACGT")))
  = db scenario_client
  /\ (forall e,
        failing_blastn (blastdbName default_config) (blastdbDir default_config)
          "ACGT" = NoPipe e ->
        Blast default_config failing_blastn scenario_client "ACGT"
        = (scenario_client, None, Some e))
  /\ (forall out xml e t,
        failing_blastn (blastdbName default_config) (blastdbDir default_config)
          "ACGT" = Ran out xml (Some e) t ->
        exists res,
          Blast default_config failing_blastn scenario_client "ACGT"
          = (scenario_client, Some res, Some e)
          /\ Error res = out /\ Query res = "ACGT" /\ BlastHits res = []
          /\ NumResults res = 0)
  /\ (forall c' res,
        Blast default_config failing_blastn scenario_client "ACGT"
        = (c', Some res, None) ->
        Query res = "ACGT" /\ NumResults res = len (BlastHits res))
  /\ (forall c',
        Blast default_config failing_blastn scenario_client "ACGT"
        <> (c', None, None)).
Proof.
  apply (Blast_never_writes default_config failing_blastn scenario_client "ACGT").
  reflexivity.
Defined.

(** ** From the harvester to the lookup *)

(** X20. What is stored is found: after a storing phase that ended well, a
    lookup on the redis it left returns, for every hit whose hash is the
    hash of a record of the page, the identifier of that record among the
    URIs of the hit. *)
Theorem stored_is_found cfg seqs w w' (s : sequence) (c : Client)
    (r : BlastResults) i h :
  process cfg seqs w = Ok tt w' ->
  s ∈ seqs ->
  idle c ->
  db c = redis w' ->
  Forall (fun x => settable (db c !! seq_key cfg (SeqHash x)) = true) (BlastHits r) ->
  BlastHits r !! i = Some h ->
  SeqHash h = Hash s ->
  exists r' h',
    getURIs cfg c r = (c, r', None)
    /\ BlastHits r' !! i = Some h'
    /\ SeqHash h' = Hash s
    /\ URI s ∈ URIs h'.
Proof.
  intros [_ ->]%process_Ok_iff Hs Hidle Hdb Hset Hi Hh.
  exists (with_hits r (List.map (reconciled cfg (db c)) (BlastHits r))),
         (reconciled cfg (db c) h).
  split; [apply getURIs_idle; assumption|]. split.
  - simpl. change List.map with (@fmap list _).
    rewrite list_lookup_fmap, Hi. reflexivity.
  - split; [exact Hh|]. simpl. apply elem_of_elements.
    unfold identifiersFor. rewrite Hh, Hdb.
    destruct (adds_key cfg seqs s Hs) as (Hu & _ & Ht & _).
    rewrite redis_steps, decide_True by exact Ht. simpl. set_solver.
Qed.

Lemma stored_is_found_witness :
  exists r' h',
    getURIs default_config scenario_client scenario_results
    = (scenario_client, r', None)
    /\ BlastHits r' !! 0%nat = Some h'
    /\ SeqHash h' = Hash seq_u2
    /\ URI seq_u2 ∈ URIs h'.
Proof.
  apply (stored_is_found default_config [seq_u1; seq_u2] empty_world
           (steps default_config [seq_u1; seq_u2] empty_world) seq_u2
           scenario_client scenario_results 0%nat hit_acgt).
  - vm_compute. reflexivity.
  - set_solver.
  - split; reflexivity.
  - reflexivity.
  - repeat constructor.
  - reflexivity.
  - vm_compute. reflexivity.
Defined.
